(** * dmap_maker: batch conversion of videos into grayscale depth-map videos

    A shallow embedding of [dmap_maker.py].  Python strings are [string],
    numpy arrays are records of a shape and an indexing function, the depth
    values are IEEE binary32 numbers ([float32]: a rational, an infinity or
    NaN, every operation rounded to nearest, ties to even), and the calls
    into OpenCV are functions on an explicit [World] that holds the files,
    the keyboard, the preview windows and every capture and writer object
    the program made. *)

From Stdlib Require Import ZArith QArith Qround Qpower Qreduction.
From Stdlib Require Import List String Ascii Bool Arith Lia Lqa.
Import ListNotations.

Local Open Scope Z_scope.

(** ** Python built-ins used by the script *)

Module Py.

(** Exceptions the script raises or lets through. *)
Inductive exn : Type :=
| IOError (msg : string)
| FileNotFoundError (path : string)
| ValueError (msg : string)
| cv2_error (msg : string)
| RuntimeError (msg : string).

Definition result (A : Type) : Type := (exn + A)%type.

(** [str.lower] on the ASCII range. *)
Definition ascii_lower (c : ascii) : ascii :=
  let n := nat_of_ascii c in
  if ((65 <=? n) && (n <=? 90))%nat then ascii_of_nat (n + 32) else c.

Fixpoint lower (s : string) : string :=
  match s with
  | EmptyString => EmptyString
  | String c r => String (ascii_lower c) (lower r)
  end.

(** [s.endswith(suffix)]. *)
Fixpoint endswith (s suffix : string) : bool :=
  String.eqb s suffix ||
  match s with
  | EmptyString => false
  | String _ r => endswith r suffix
  end.

(** [s.endswith((a, b, ...))]: a tuple of suffixes. *)
Definition endswith_any (s : string) (suffixes : list string) : bool :=
  existsb (endswith s) suffixes.

(** [s.startswith(prefix)] is [String.prefix prefix s]. *)
Definition startswith (s pre : string) : bool := String.prefix pre s.

(** [os.path.join(a, b)] of posixpath. *)
Definition os_path_join (a b : string) : string :=
  if startswith b "/" then b
  else if String.eqb a EmptyString || endswith a "/" then (a ++ b)%string
  else (a ++ "/" ++ b)%string.

(** [int(x)] of a float: truncation toward zero. *)
Definition int (x : Q) : Z := Z.quot (Qnum x) (Zpos (Qden x)).

(** [ord('q')]. *)
Definition ord (c : ascii) : Z := Z.of_nat (nat_of_ascii c).

End Py.
Export Py.

(** ** numpy arrays *)

Module Np.

(** A two-dimensional array: [shape0] rows, [shape1] columns, [item i j] the
    element at row [i], column [j].  A colour image has a triple per
    element. *)
Record ndarray (A : Type) : Type := mk_ndarray {
  shape0 : nat;
  shape1 : nat;
  item : nat -> nat -> A
}.
Arguments mk_ndarray {A}.
Arguments shape0 {A}.
Arguments shape1 {A}.
Arguments item {A}.

(** The elements in row-major order. *)
Definition elements {A} (a : ndarray A) : list A :=
  flat_map (fun i => map (item a i) (seq 0 (shape1 a))) (seq 0 (shape0 a)).

Definition qmin (x y : Q) : Q := if Qle_bool x y then x else y.
Definition qmax (x y : Q) : Q := if Qle_bool x y then y else x.

(** Element-wise map ([image / 255.0], [(image - mean) / std], ...). *)
Definition amap {A B} (f : A -> B) (a : ndarray A) : ndarray B :=
  mk_ndarray (shape0 a) (shape1 a) (fun i j => f (item a i j)).

(** An array after [squeeze()]: without its axes of length one, so of
    dimension zero, one or two. *)
Inductive squeezed (A : Type) : Type :=
| Scalar (x : A)
| Vector (n : nat) (v : nat -> A)
| Matrix (a : ndarray A).
Arguments Scalar {A}.
Arguments Vector {A}.
Arguments Matrix {A}.

(** [t.squeeze()] of a tensor of shape [(1, shape0, shape1)], which the
    two-dimensional array [t] stands for: the leading axis goes, and so does
    each of the other two that has length one. *)
Definition squeeze {A} (t : ndarray A) : squeezed A :=
  if (shape0 t =? 1)%nat then
    if (shape1 t =? 1)%nat then Scalar (item t 0 0)
    else Vector (shape1 t) (fun j => item t 0 j)
  else
    if (shape1 t =? 1)%nat then Vector (shape0 t) (fun i => item t i 0)
    else Matrix t.

Definition sq_elements {A} (s : squeezed A) : list A :=
  match s with
  | Scalar x => [x]
  | Vector n v => map v (seq 0 n)
  | Matrix a => elements a
  end.

(** An element-wise operation; [f] is given the index of the element. *)
Definition sq_mapi {A B} (f : nat -> nat -> A -> B) (s : squeezed A) : squeezed B :=
  match s with
  | Scalar x => Scalar (f 0 0 x)%nat
  | Vector n v => Vector n (fun k => f k 0%nat (v k))
  | Matrix a => Matrix (mk_ndarray (shape0 a) (shape1 a) (fun i j => f i j (item a i j)))
  end.

End Np.
Export Np.

(** ** IEEE binary32 arithmetic *)

Module F32.

(** A float32: a finite number, given by its value, an infinity or NaN.  The
    sign of a zero is not kept: it shows only in a division by zero, and the
    divisor of the script, the difference of a maximum and a minimum, is
    never a negative zero. *)
Inductive float32 : Type :=
| Fin (q : Q)
| Inf (negative : bool)
| NaN.

(** The nearest integer, a tie to the even one. *)
Definition rne (x : Q) : Z :=
  let f := Qfloor x in
  match ((x - inject_Z f) ?= (1 # 2))%Q with
  | Lt => f
  | Gt => f + 1
  | Eq => if Z.even f then f else f + 1
  end.

(** The integer [e] with [2^e <= x < 2^(e+1)], for a positive [x]. *)
Definition ilog2 (x : Q) : Z :=
  let k := Z.log2 (Qnum x) - Z.log2 (Zpos (Qden x)) in
  if Qle_bool (2 ^ k) x then k else k - 1.

(** The exponent float32 gives to a positive number: that of its binade, and
    -126 for the subnormal numbers. *)
Definition binade (a : Q) : Z := Z.max (ilog2 a) (-126).

(** A positive number rounded to 24 significant bits at its exponent. *)
Definition round_pos (a : Q) : Q :=
  let ulp := (2 ^ (binade a - 23))%Q in
  (inject_Z (rne (a / ulp)) * ulp)%Q.

(** The float32 nearest to an exact result, ties to even; what rounds to
    [2^128] or beyond is an infinity. *)
Definition round32 (x : Q) : float32 :=
  let x := Qred x in
  match (x ?= 0)%Q with
  | Eq => Fin 0
  | Gt => let r := round_pos x in
          if Qle_bool (2 ^ 128) r then Inf false else Fin (Qred r)
  | Lt => let r := round_pos (- x) in
          if Qle_bool (2 ^ 128) r then Inf true else Fin (Qred (- r))
  end.

Definition negative (x : Q) : bool := negb (Qle_bool 0 x).

(** [a - b]. *)
Definition f32_sub (a b : float32) : float32 :=
  match a, b with
  | NaN, _ | _, NaN => NaN
  | Fin x, Fin y => round32 (x - y)
  | Fin _, Inf s => Inf (negb s)
  | Inf s, Fin _ => Inf s
  | Inf s, Inf t => if Bool.eqb s t then NaN else Inf s
  end.

(** [a / b]: numpy warns on a zero divisor and goes on. *)
Definition f32_div (a b : float32) : float32 :=
  match a, b with
  | NaN, _ | _, NaN => NaN
  | Fin x, Fin y =>
    if Qeq_bool y 0 then (if Qeq_bool x 0 then NaN else Inf (negative x))
    else round32 (x / y)
  | Fin _, Inf _ => Fin 0
  | Inf s, Fin y => Inf (xorb s (negative y))
  | Inf _, Inf _ => NaN
  end.

(** [a * b]. *)
Definition f32_mul (a b : float32) : float32 :=
  match a, b with
  | NaN, _ | _, NaN => NaN
  | Fin x, Fin y => round32 (x * y)
  | Fin x, Inf s | Inf s, Fin x =>
    if Qeq_bool x 0 then NaN else Inf (xorb s (negative x))
  | Inf s, Inf t => Inf (xorb s t)
  end.

(** [a <= b], false when one of them is NaN. *)
Definition f32_leb (a b : float32) : bool :=
  match a, b with
  | NaN, _ | _, NaN => false
  | Fin x, Fin y => Qle_bool x y
  | Inf s, Fin _ => s
  | Fin _, Inf t => negb t
  | Inf s, Inf t => s || negb t
  end.

(** The minimum and the maximum of two numbers as [np.min] and [np.max]
    take them: NaN when one of them is NaN. *)
Definition f32_min (a b : float32) : float32 :=
  match a, b with
  | NaN, _ | _, NaN => NaN
  | _, _ => if f32_leb a b then a else b
  end.

Definition f32_max (a b : float32) : float32 :=
  match a, b with
  | NaN, _ | _, NaN => NaN
  | _, _ => if f32_leb a b then b else a
  end.

(** [a.min()] and [a.max()]: a reduction, which has no value on an array
    without elements (numpy raises ValueError there). *)
Definition np_min (a : squeezed float32) : option float32 :=
  match sq_elements a with
  | [] => None
  | x :: xs => Some (fold_left f32_min xs x)
  end.

Definition np_max (a : squeezed float32) : option float32 :=
  match sq_elements a with
  | [] => None
  | x :: xs => Some (fold_left f32_max xs x)
  end.

End F32.
Export F32.

(** ** OpenCV: images, captures, writers and the preview window *)

Module Cv2.

(** An 8-bit BGR frame, an 8-bit single-channel image, a float RGB image. *)
Definition frame : Type := ndarray (Z * Z * Z).
Definition gray : Type := ndarray Z.
Definition image : Type := ndarray (Q * Q * Q).

(** What a decodable video file holds: the metadata of its container and
    its frames.  [stream i] is the frame the [i]-th successful read
    returns, [None] when the read fails; a stream may go on past
    [reported_frames], or stop before it. *)
Record Video : Type := mk_Video {
  reported_frames : Z;
  fps : Q;
  width : nat;
  height : nat;
  stream : nat -> option frame
}.

(** A [cv2.VideoCapture] object.  [cap_source] is [None] when the file
    could not be opened; [cap_pos] is the index of the next frame;
    [cap_reads] counts the calls of [read]. *)
Record VideoCapture : Type := mk_VideoCapture {
  cap_path : string;
  cap_source : option Video;
  cap_pos : nat;
  cap_reads : nat;
  cap_released : bool
}.

(** A [cv2.VideoWriter] object, that is an output file: its parameters and
    the frames handed to [write], oldest first. *)
Record VideoWriter : Type := mk_VideoWriter {
  out_path : string;
  out_fourcc : string;
  out_fps : Q;
  out_size : Z * Z;
  out_isColor : bool;
  out_frames : list gray;
  out_released : bool
}.

(** The environment of a run.  [files] and [listing] are the input side of
    the file system ([listing] is [os.listdir]); [keys] are the results the
    next calls of [waitKey] return; [windows] are the open preview windows;
    [cap_log] and [writer_log] hold every capture and writer the program
    has created, in creation order, in the state the program left them. *)
Record World : Type := mk_World {
  files : string -> option Video;
  listing : string -> option (list string);
  keys : list Z;
  windows : list string;
  cap_log : list VideoCapture;
  writer_log : list VideoWriter
}.

Definition set_keys (ks : list Z) (w : World) : World :=
  mk_World (files w) (listing w) ks (windows w) (cap_log w) (writer_log w).

Definition set_windows (ws : list string) (w : World) : World :=
  mk_World (files w) (listing w) (keys w) ws (cap_log w) (writer_log w).

Definition log_capture (c : VideoCapture) (w : World) : World :=
  mk_World (files w) (listing w) (keys w) (windows w) (cap_log w ++ [c]) (writer_log w).

Definition log_writer (o : VideoWriter) (w : World) : World :=
  mk_World (files w) (listing w) (keys w) (windows w) (cap_log w) (writer_log w ++ [o]).

(** [cv2.VideoCapture(path)]. *)
Definition VideoCapture_open (w : World) (path : string) : VideoCapture :=
  mk_VideoCapture path (files w path) 0 0 false.

(** [cap.isOpened()]. *)
Definition isOpened (c : VideoCapture) : bool :=
  match cap_source c with
  | Some _ => negb (cap_released c)
  | None => false
  end.

Inductive prop_id : Type :=
| CAP_PROP_FRAME_WIDTH | CAP_PROP_FRAME_HEIGHT | CAP_PROP_FPS | CAP_PROP_FRAME_COUNT.

(** [cap.get(prop)]: a double; 0 on a capture that is not open. *)
Definition get (c : VideoCapture) (p : prop_id) : Q :=
  match cap_source c with
  | None => 0%Q
  | Some v =>
    if cap_released c then 0%Q else
    match p with
    | CAP_PROP_FRAME_WIDTH => inject_Z (Z.of_nat (width v))
    | CAP_PROP_FRAME_HEIGHT => inject_Z (Z.of_nat (height v))
    | CAP_PROP_FPS => fps v
    | CAP_PROP_FRAME_COUNT => inject_Z (reported_frames v)
    end
  end.

(** [cap.read()]: [(ret, frame)], here [Some frame] or [None]. *)
Definition read (c : VideoCapture) : option frame * VideoCapture :=
  let failed :=
    (None, mk_VideoCapture (cap_path c) (cap_source c) (cap_pos c)
             (S (cap_reads c)) (cap_released c)) in
  match cap_source c with
  | None => failed
  | Some v =>
    if cap_released c then failed else
    match stream v (cap_pos c) with
    | None => failed
    | Some f =>
      (Some f, mk_VideoCapture (cap_path c) (cap_source c) (S (cap_pos c))
                 (S (cap_reads c)) (cap_released c))
    end
  end.

(** [cap.release()]. *)
Definition release_capture (c : VideoCapture) : VideoCapture :=
  mk_VideoCapture (cap_path c) (cap_source c) (cap_pos c) (cap_reads c) true.

(** [cv2.VideoWriter(path, fourcc, fps, (width, height), isColor=...)]. *)
Definition VideoWriter_open (path fourcc : string) (rate : Q) (size : Z * Z)
    (isColor : bool) : VideoWriter :=
  mk_VideoWriter path fourcc rate size isColor [] false.

(** [out.write(image)]. *)
Definition write (o : VideoWriter) (g : gray) : VideoWriter :=
  mk_VideoWriter (out_path o) (out_fourcc o) (out_fps o) (out_size o)
    (out_isColor o) (out_frames o ++ [g]) (out_released o).

(** [out.release()]. *)
Definition release_writer (o : VideoWriter) : VideoWriter :=
  mk_VideoWriter (out_path o) (out_fourcc o) (out_fps o) (out_size o)
    (out_isColor o) (out_frames o) true.

(** [cv2.imshow(name, image)]: the window is created on first use. *)
Definition imshow (name : string) (g : gray) (w : World) : World :=
  if existsb (String.eqb name) (windows w) then w
  else set_windows (windows w ++ [name]) w.

(** [cv2.waitKey(1)]: the code of the key pressed, -1 when none was. *)
Definition waitKey (w : World) : Z * World :=
  match keys w with
  | [] => (-1, w)
  | k :: ks => (k, set_keys ks w)
  end.

(** [cv2.destroyAllWindows()]. *)
Definition destroyAllWindows (w : World) : World := set_windows [] w.

(** How OpenCV reads a numpy array as a matrix: an array of dimension one
    is a column, a scalar a matrix of one element. *)
Definition as_mat {A : Type} (s : squeezed A) : ndarray A :=
  match s with
  | Scalar x => mk_ndarray 1 1 (fun _ _ => x)
  | Vector n v => mk_ndarray n 1 (fun i _ => v i)
  | Matrix a => a
  end.

(** [cv2.cvtColor(frame, cv2.COLOR_BGR2RGB)]. *)
Definition cvtColor_BGR2RGB (f : frame) : frame :=
  amap (fun p => let '(b, g, r) := p in (r, g, b)) f.

End Cv2.
Export Cv2.

(** [os.listdir(folder)]. *)
Definition listdir (w : World) (folder : string) : result (list string) :=
  match listing w folder with
  | None => inl (FileNotFoundError folder)
  | Some entries => inr entries
  end.

(** Sequencing of computations that may raise. *)
Definition bind {A B : Type} (r : result A) (k : A -> result B) : result B :=
  match r with
  | inl e => inl e
  | inr a => k a
  end.

Notation "x <- c ;; k" := (bind c (fun x => k))
  (at level 61, c at next level, right associativity).

(** ** The preprocessing transform *)

Module Transform.

(** [np.round]: to the nearest integer, a tie to the even one. *)
Definition np_round (x : Q) : Z :=
  let f := Qfloor x in
  match ((x - inject_Z f) ?= (1 # 2))%Q with
  | Lt => f
  | Gt => f + 1
  | Eq => if Z.even f then f else f + 1
  end.

(** The arguments [get_transform] gives to [Resize]. *)
Record Resize : Type := mk_Resize {
  rs_width : Z;
  rs_height : Z;
  ensure_multiple_of : Z
}.

(** Modelled from the spec: [Resize] of depth_anything/util/transform.py is
    not among the sources.  Snapping to the multiple-of-14 constraint:
    the nearest multiple of [ensure_multiple_of], and the next one above
    when that falls under the lower bound [min_val]
    ([resize_method='lower_bound']). *)
Definition constrain_to_multiple_of (r : Resize) (x : Q) (min_val : Z) : Z :=
  let m := ensure_multiple_of r in
  let y := np_round (x / inject_Z m) * m in
  if y <? min_val then Qceiling (x / inject_Z m) * m else y.

(** Modelled from the spec: [Resize] of depth_anything/util/transform.py is
    not among the sources.  The size of the resized image, [(width,
    height)]: both axes are scaled by one factor
    ([keep_aspect_ratio=True]), the larger of target/size on the two axes,
    so that the shorter dimension reaches the target, and each scaled
    dimension is snapped to the multiple-of-14 constraint. *)
Definition get_size (r : Resize) (w h : nat) : Z * Z :=
  let scale_height := (inject_Z (rs_height r) / inject_Z (Z.of_nat h))%Q in
  let scale_width := (inject_Z (rs_width r) / inject_Z (Z.of_nat w))%Q in
  let scale := qmax scale_height scale_width in
  let new_height :=
    constrain_to_multiple_of r (scale * inject_Z (Z.of_nat h))%Q (rs_height r) in
  let new_width :=
    constrain_to_multiple_of r (scale * inject_Z (Z.of_nat w))%Q (rs_width r) in
  (new_width, new_height).

(** Modelled from the spec: [NormalizeImage] of
    depth_anything/util/transform.py is not among the sources.  Fixed
    per-channel mean and standard deviation. *)
Definition NormalizeImage (mean std : Q * Q * Q) (img : image) : image :=
  let '(m0, m1, m2) := mean in
  let '(s0, s1, s2) := std in
  amap (fun p => let '(r, g, b) := p in
                 ((r - m0) / s0, (g - m1) / s1, (b - m2) / s2)%Q) img.

(** Modelled from the spec: [PrepareForNet] of
    depth_anything/util/transform.py is not among the sources.  It changes
    the memory layout only. *)
Definition PrepareForNet (img : image) : image := img.

End Transform.
Export Transform.

(** ** The script *)

(** How the frame loop of [process_video] was left. *)
Inductive loop_exit : Type :=
| RangeExhausted
| ReadFailed
| QuitKey
| Raised (e : exn).

(** The objects the frame loop works on. *)
Record Proc : Type := mk_Proc {
  p_world : World;
  p_cap : VideoCapture;
  p_out : VideoWriter
}.

(** The selection test of [batch_process_videos]. *)
Definition is_video (f : string) : bool :=
  endswith_any (lower f) [".mp4"; ".avi"; ".mov"]%string.

(** The extension of a file name, following the spec's word: the part from
    the last dot on, empty when there is no dot. *)
Fixpoint extension (s : string) : string :=
  match s with
  | EmptyString => EmptyString
  | String c r =>
    match extension r with
    | EmptyString => if Ascii.eqb c "."%char then s else EmptyString
    | e => e
    end
  end.

(** The spec's selection: the extension, compared case-insensitively, is one
    of the three. *)
Definition has_video_extension (f : string) : Prop :=
  In (lower (extension f)) [".mp4"; ".avi"; ".mov"]%string.

Section Pipeline.

(** The pretrained network, and the pixel values OpenCV's Lanczos
    interpolation and Gaussian blur compute, are not modelled: they are
    parameters.  So is the byte numpy stores when it casts to uint8 a float
    that is not a number or is out of range, which numpy leaves
    unspecified.  The array the network returns stands for its tensor of
    shape [(1, shape0, shape1)]. *)
Variable model : image -> result (ndarray float32).
Variable lanczos4 : forall A : Type, ndarray A -> nat -> nat -> nat -> nat -> A.
Variable gaussian5x5 : gray -> nat -> nat -> Z.
Variable uint8_of_invalid : nat -> nat -> Z.

(** [cv2.resize(src, (width, height), interpolation=cv2.INTER_LANCZOS4)]:
    the result has [height] rows and [width] columns. *)
Definition cv2_resize {A : Type} (src : ndarray A) (dsize : Z * Z) : result (ndarray A) :=
  let '(w, h) := dsize in
  if (shape0 src =? 0)%nat || (shape1 src =? 0)%nat || (w <=? 0) || (h <=? 0)
  then inl (cv2_error "resize: empty source or destination")
  else inr (mk_ndarray (Z.to_nat h) (Z.to_nat w)
              (lanczos4 A src (Z.to_nat h) (Z.to_nat w))).

(** [cv2.GaussianBlur(src, (5, 5), 0)]: same shape. *)
Definition cv2_GaussianBlur (src : squeezed Z) : gray :=
  let m := as_mat src in
  mk_ndarray (shape0 m) (shape1 m) (gaussian5x5 m).

(** Modelled from the spec: [Resize.__call__] of
    depth_anything/util/transform.py is not among the sources.  The image
    is resized to [get_size] of its width and height. *)
Definition Resize_call (r : Resize) (img : image) : result image :=
  cv2_resize img (get_size r (shape1 img) (shape0 img)).

Definition the_resize : Resize := mk_Resize 532 532 14.

Definition get_transform (img : image) : result image :=
  resized <- Resize_call the_resize img ;;
  inr (PrepareForNet
         (NormalizeImage (485 # 1000, 456 # 1000, 406 # 1000)%Q
                         (229 # 1000, 224 # 1000, 225 # 1000)%Q resized)).

Definition transform_image (f : frame) : result image :=
  let frame_rgb :=
    amap (fun p => let '(r, g, b) := p in
                   (inject_Z r / 255, inject_Z g / 255, inject_Z b / 255)%Q)
         (cvtColor_BGR2RGB f) in
  get_transform frame_rgb.

Definition estimate_depth (img : image) : result (ndarray float32) := model img.

(** [x.astype(np.uint8)] of the element at [(i, j)]: the fraction is cut
    off; what a NaN, an infinity or a number out of range becomes is not
    specified. *)
Definition astype_uint8 (i j : nat) (x : float32) : Z :=
  match x with
  | Fin q => if (0 <=? int q) && (int q <=? 255) then int q else uint8_of_invalid i j
  | _ => uint8_of_invalid i j
  end.

Definition visualize_depth (depth : ndarray float32) : result (squeezed Z) :=
  let depth_rescaled := squeeze depth in
  match np_min depth_rescaled, np_max depth_rescaled with
  | Some lo, Some hi =>
    let range := f32_sub hi lo in
    inr (sq_mapi
           (fun i j x =>
              astype_uint8 i j (f32_mul (f32_div (f32_sub x lo) range) (Fin 255)))
           depth_rescaled)
  | _, _ =>
    inl (ValueError
           "zero-size array to reduction operation minimum which has no identity")
  end.

Definition apply_smoothing (depth_grayscale : squeezed Z) : gray :=
  cv2_GaussianBlur depth_grayscale.

Definition resize_depth_to_frame (depth_grayscale : gray) (f : frame) : result gray :=
  cv2_resize depth_grayscale (Z.of_nat (shape1 f), Z.of_nat (shape0 f)).

Definition process_frame (f : frame) : result gray :=
  img <- transform_image f ;;
  depth <- estimate_depth img ;;
  depth_grayscale <- visualize_depth depth ;;
  resize_depth_to_frame (apply_smoothing depth_grayscale) f.

Definition initialize_video_writer (cap : VideoCapture) (output_video_path : string)
    : VideoWriter :=
  let fourcc := "mp4v"%string in
  let rate := get cap CAP_PROP_FPS in
  let size := (int (get cap CAP_PROP_FRAME_WIDTH), int (get cap CAP_PROP_FRAME_HEIGHT)) in
  VideoWriter_open output_video_path fourcc rate size false.

(** [cv2.waitKey(1) & 0xFF == ord('q')]. *)
Definition is_quit (k : Z) : bool := Z.land k 255 =? ord "q".

(** The body of [for _ in range(total_frames)], [n] iterations left. *)
Fixpoint frame_loop (n : nat) (st : Proc) : Proc * loop_exit :=
  match n with
  | O => (st, RangeExhausted)
  | S n' =>
    let '(ret, cap) := read (p_cap st) in
    match ret with
    | None => (mk_Proc (p_world st) cap (p_out st), ReadFailed)
    | Some f =>
      match process_frame f with
      | inl e => (mk_Proc (p_world st) cap (p_out st), Raised e)
      | inr processed_frame =>
        let out := write (p_out st) processed_frame in
        let w1 := imshow "Depth Anywhere" processed_frame (p_world st) in
        let '(k, w2) := waitKey w1 in
        if is_quit k then (mk_Proc w2 cap out, QuitKey)
        else frame_loop n' (mk_Proc w2 cap out)
      end
    end
  end.

(** The [finally] block. *)
Definition finally (st : Proc) : World :=
  destroyAllWindows
    (log_writer (release_writer (p_out st))
       (log_capture (release_capture (p_cap st)) (p_world st))).

(** [process_video] from the creation of the writer on: the capture is
    open. *)
Definition process_opened (cap : VideoCapture) (output_video_path : string) (w : World)
    : World * loop_exit :=
  let out_video := initialize_video_writer cap output_video_path in
  let total_frames := int (get cap CAP_PROP_FRAME_COUNT) in
  let '(st, ex) := frame_loop (Z.to_nat total_frames) (mk_Proc w cap out_video) in
  (finally st, ex).

(** What the caller of [process_video] sees of a loop exit: an exception
    goes on after the [finally] block, a [break] or the end of the range
    returns. *)
Definition outcome (ex : loop_exit) : result unit :=
  match ex with
  | Raised e => inl e
  | _ => inr tt
  end.

Definition process_video (video_path output_video_path : string) (w : World)
    : World * result unit :=
  let cap := VideoCapture_open w video_path in
  if negb (isOpened cap)
  then (log_capture cap w, inl (IOError ("Cannot open video " ++ video_path)))
  else
    let '(w', ex) := process_opened cap output_video_path w in
    (w', outcome ex).

(** The [for filename in video_files] loop of [batch_process_videos]. *)
Fixpoint for_each_video (input_folder output_folder : string)
    (video_files : list string) (w : World) : World * result unit :=
  match video_files with
  | [] => (w, inr tt)
  | filename :: rest =>
    let video_path := os_path_join input_folder filename in
    let output_video_path := os_path_join output_folder ("processed_" ++ filename) in
    match process_video video_path output_video_path w with
    | (w', inl e) => (w', inl e)
    | (w', inr _) => for_each_video input_folder output_folder rest w'
    end
  end.

Definition batch_process_videos (input_folder output_folder : string) (w : World)
    : World * result unit :=
  match listdir w input_folder with
  | inl e => (w, inl e)
  | inr entries =>
    for_each_video input_folder output_folder (filter is_video entries) w
  end.

(** ** Predicates used in the statements *)

(** The video has exactly [N] frames. *)
Definition has_frames (v : Video) (N : nat) : Prop :=
  forall i, ((i < N)%nat -> exists f, stream v i = Some f) /\
            ((N <= i)%nat -> stream v i = None).

(** Two images have the same height and width. *)
Definition same_shape {A B : Type} (a : ndarray A) (b : ndarray B) : Prop :=
  shape0 a = shape0 b /\ shape1 a = shape1 b.

(** The number [q] is a float32. *)
Definition is_float32 (q : Q) : Prop := round32 q = Fin (Qred q).

(** Every element of the depth map is a finite float32. *)
Definition finite_depths (depth : ndarray float32) : Prop :=
  forall i j, (i < shape0 depth)%nat -> (j < shape1 depth)%nat ->
    exists q, item depth i j = Fin q /\ is_float32 q.

(** The [i]-th frame of the output is the processed [i]-th frame of the
    source. *)
Definition frames_from (v : Video) (start : nat) (out : list gray) : Prop :=
  forall i g, nth_error out i = Some g ->
    exists f, stream v (start + i) = Some f /\ process_frame f = inr g.

(** What one run of the frame loop and of the [finally] block leaves of a
    video [v] opened at [path]: a capture [c] and a writer [o], both
    released. *)
Definition ran_video (v : Video) (path output : string) (c : VideoCapture)
    (o : VideoWriter) : Prop :=
  (cap_path c = path /\ cap_source c = Some v /\ cap_released c = true) /\
  (out_path o = output /\ out_fourcc o = "mp4v"%string /\ out_fps o = fps v /\
   out_size o = (Z.of_nat (width v), Z.of_nat (height v)) /\
   out_isColor o = false /\ out_released o = true) /\
  ((cap_reads c <= Z.to_nat (reported_frames v))%nat /\
   (cap_pos c <= cap_reads c)%nat /\
   (List.length (out_frames o) <= cap_pos c)%nat /\
   frames_from v 0 (out_frames o)).

(** The writer [o] is the output of the entry [F] of the input folder. *)
Definition output_of (w : World) (input_folder output_folder F : string)
    (o : VideoWriter) : Prop :=
  exists v c,
    files w (os_path_join input_folder F) = Some v /\
    ran_video v (os_path_join input_folder F)
      (os_path_join output_folder ("processed_" ++ F)) c o.

(** The entry [F] of the input folder is a file that opens as a video. *)
Definition openable (w : World) (input_folder F : string) : bool :=
  match files w (os_path_join input_folder F) with
  | Some _ => true
  | None => false
  end.

(** [process_frame] raises on no frame of the video. *)
Definition frames_processable (v : Video) : Prop :=
  forall i f, stream v i = Some f -> exists g, process_frame f = inr g.

(** The entry [F] of the input folder opens as a video whose frames are
    all processed without an exception. *)
Definition processable (w : World) (input_folder F : string) : Prop :=
  exists v, files w (os_path_join input_folder F) = Some v /\ frames_processable v.

(** ** Concrete inputs *)

(** A 4 by 6 frame of one colour, blue 10, green 20, red [r]. *)
Definition ex_frame (r : Z) : frame := mk_ndarray 4 6 (fun _ _ => (10, 20, r)).

(** Three frames, reported as three. *)
Definition ex_video : Video :=
  mk_Video 3 30 6 4 (nth_error [ex_frame 200; ex_frame 180; ex_frame 160]).

(** A stream that never ends, reported as two frames. *)
Definition ex_endless_video : Video :=
  mk_Video 2 25 6 4 (fun _ => Some (ex_frame 150)).

(** A video whose second frame makes [ex_model] fail. *)
Definition ex_failing_video : Video :=
  mk_Video 3 24 6 4 (nth_error [ex_frame 200; ex_frame 0; ex_frame 200]).

Definition ex_files (path : string) : option Video :=
  if String.eqb path "in/a.mp4" then Some ex_video
  else if String.eqb path "in/b.MOV" then Some ex_endless_video
  else if String.eqb path "in/c.avi" then Some ex_failing_video
  else if String.eqb path "two/second.mp4" then Some ex_video
  else None.

Definition ex_listing (folder : string) : option (list string) :=
  if String.eqb folder "in"
  then Some ["a.mp4"; "notes.txt"; "b.MOV"; "clip.gif"]%string
  else if String.eqb folder "two"
  then Some ["first.mp4"; "second.mp4"]%string
  else None.

(** A world with these files and the given key presses. *)
Definition ex_world (ks : list Z) : World :=
  mk_World ex_files ex_listing ks [] [] [].

(** A stand-in for the network: it fails on a dark first pixel, and else
    returns a 2 by 3 depth map. *)
Definition ex_model (img : image) : result (ndarray float32) :=
  let '(r, _, _) := item img 0 0 in
  if Qle_bool r 0 then inl (RuntimeError "out of memory")
  else inr (mk_ndarray 2 3 (fun i j => Fin (inject_Z (Z.of_nat (i + 2 * j))))).

(** Stand-ins for the interpolation (nearest corner), the blur (none) and
    the invalid cast. *)
Definition ex_lanczos4 (A : Type) (src : ndarray A) (h w i j : nat) : A :=
  item src 0 0.

Definition ex_gaussian5x5 (src : gray) (i j : nat) : Z := item src i j.

Definition ex_uint8_of_invalid (i j : nat) : Z := 0.

(** A 480 by 640 image, all black. *)
Definition ex_image_vga : image := mk_ndarray 480 640 (fun _ _ => (0, 0, 0)%Q).

(** A depth map with minimum 0 and maximum 3. *)
Definition ex_depth : ndarray float32 :=
  mk_ndarray 2 2 (fun i j => Fin (inject_Z (Z.of_nat (i + 2 * j)))).

(** A row of three depths, 0, 8585987 / 2^23 and 3. *)
Definition ex_depth_row : ndarray float32 :=
  mk_ndarray 1 3
    (fun _ j => match j with
                | O => Fin 0
                | S O => Fin (8585987 # 8388608)
                | _ => Fin 3
                end).

(** Depths -2^127, 0 and 2^127: finite, with a difference that is not. *)
Definition ex_depth_wide : ndarray float32 :=
  mk_ndarray 3 1
    (fun i _ => match i with
                | O => Fin (- (2 ^ 127))
                | S O => Fin 0
                | _ => Fin (2 ^ 127)
                end).

(** Two frames, reported as ten. *)
Definition ex_short_video : Video :=
  mk_Video 10 30 6 4 (nth_error [ex_frame 200; ex_frame 180]).

(** One frame in a container that reports no frame count. *)
Definition ex_uncounted_video : Video :=
  mk_Video 0 30 6 4 (nth_error [ex_frame 200]).

Definition ex_files2 (path : string) : option Video :=
  if String.eqb path "v/fail.mov" then Some ex_failing_video
  else if String.eqb path "v/short.mp4" then Some ex_short_video
  else if String.eqb path "v/zero.avi" then Some ex_uncounted_video
  else None.

Definition ex_listing2 (folder : string) : option (list string) :=
  if String.eqb folder "v" then Some ["fail.mov"; "short.mp4"]%string
  else if String.eqb folder "docs" then Some ["readme.txt"; "a.gif"; "mp4"]%string
  else None.

Definition ex_world2 (ks : list Z) : World :=
  mk_World ex_files2 ex_listing2 ks [] [] [].

(** ** Proof steps shared by the lemmas on the frame loop *)

(** Reduce the projections of the records of the world. *)
Ltac proj_simpl :=
  cbn [p_world p_cap p_out cap_path cap_source cap_pos cap_reads cap_released
       out_path out_fourcc out_fps out_size out_isColor out_frames out_released
       files listing keys windows cap_log writer_log List.length].

(** The case of the frame loop that leaves at once: no new frame. *)
Ltac loop_stops :=
  exists []; rewrite app_nil_r; proj_simpl;
  split; [reflexivity|]; do 4 (split; [lia|]);
  intros [|?] ? ?; discriminate.

(** ** Facts on strings and paths *)

Local Open Scope string_scope.

Lemma append_nil_r (s : string) : s ++ EmptyString = s.
Proof. induction s as [|c s IH]; simpl; [reflexivity | now rewrite IH]. Qed.


Lemma append_inj_l (a b c : string) : a ++ b = a ++ c -> b = c.
Proof.
  induction a as [|x a IH]; simpl; intros H; [exact H|].
  injection H as H. now apply IH.
Qed.

Lemma endswith_spec (s suf : string) :
  endswith s suf = true <-> exists pre, s = pre ++ suf.
Proof.
  induction s as [|c s IH]; cbn [endswith].
  - rewrite orb_false_r, String.eqb_eq. split.
    + intros <-. now exists EmptyString.
    + intros [pre H]. destruct pre; simpl in H; [exact H | discriminate].
  - rewrite orb_true_iff, String.eqb_eq, IH. split.
    + intros [<- | [pre ->]].
      * now exists EmptyString.
      * now exists (String c pre).
    + intros [[|x pre] H]; simpl in H.
      * now left.
      * injection H as _ H. right. now exists pre.
Qed.

Lemma lower_append (a b : string) : lower (a ++ b) = lower a ++ lower b.
Proof. induction a as [|x a IH]; simpl; [reflexivity | now rewrite IH]. Qed.

Lemma ascii_lower_dot (c : ascii) :
  Ascii.eqb (ascii_lower c) "."%char = Ascii.eqb c "."%char.
Proof. destruct c as [[] [] [] [] [] [] [] []]; reflexivity. Qed.

Lemma extension_lower (s : string) : extension (lower s) = lower (extension s).
Proof.
  induction s as [|c s IH]; simpl; [reflexivity|].
  rewrite IH, ascii_lower_dot.
  destruct (extension s) as [|e0 e]; simpl; [|reflexivity].
  destruct (Ascii.eqb c "."%char); reflexivity.
Qed.

Lemma extension_append_r (a b : string) :
  extension b <> EmptyString -> extension (a ++ b) = extension b.
Proof.
  intros Hb. induction a as [|x a IH]; simpl; [reflexivity|].
  rewrite IH. destruct (extension b); [contradiction | reflexivity].
Qed.

Lemma extension_suffix (s : string) :
  extension s = EmptyString \/ exists pre, s = pre ++ extension s.
Proof.
  induction s as [|c s IH]; simpl; [now left|].
  destruct (extension s) as [|e0 e] eqn:E.
  - destruct (Ascii.eqb c "."%char); [right | now left].
    now exists EmptyString.
  - right. destruct IH as [IH | [pre IH]]; [discriminate|].
    exists (String c pre). simpl. now rewrite <- IH.
Qed.

Lemma endswith_lower_extension (f ext : string) :
  extension ext = ext -> ext <> EmptyString ->
  endswith (lower f) ext = true <-> lower (extension f) = ext.
Proof.
  intros Hext Hne. rewrite endswith_spec, <- extension_lower. split.
  - intros [pre ->]. rewrite extension_append_r; rewrite Hext; auto.
  - intros H. destruct (extension_suffix (lower f)) as [E | [pre E]].
    + congruence.
    + exists pre. now rewrite <- H.
Qed.

Lemma is_video_spec (f : string) : is_video f = true <-> has_video_extension f.
Proof.
  unfold is_video, has_video_extension, endswith_any. simpl.
  rewrite orb_false_r, !orb_true_iff.
  rewrite !endswith_lower_extension by (reflexivity || discriminate).
  intuition auto.
Qed.

Lemma join_processed (folder : string) :
  exists sep, (sep = EmptyString \/ sep = "/") /\
    forall f, os_path_join folder ("processed_" ++ f)
              = folder ++ sep ++ "processed_" ++ f.
Proof.
  unfold os_path_join, startswith. cbn [append prefix].
  destruct (String.eqb folder EmptyString || endswith folder "/").
  - exists EmptyString. split; [now left | reflexivity].
  - exists "/". split; [now right | reflexivity].
Qed.

Lemma join_processed_inj (folder a b : string) :
  os_path_join folder ("processed_" ++ a) = os_path_join folder ("processed_" ++ b) ->
  a = b.
Proof.
  destruct (join_processed folder) as (sep & _ & Hj). rewrite !Hj.
  intros H. now do 3 apply append_inj_l in H.
Qed.



Local Close Scope string_scope.

(** ** The frame loop *)

Lemma cv2_resize_shape {A : Type} (src dst : ndarray A) (w h : nat) :
  cv2_resize src (Z.of_nat w, Z.of_nat h) = inr dst ->
  shape0 dst = h /\ shape1 dst = w.
Proof.
  unfold cv2_resize. destruct (_ || _); [discriminate|].
  intros H. injection H as <-. simpl. now rewrite !Nat2Z.id.
Qed.

Lemma process_frame_shape (f : frame) (g : gray) :
  process_frame f = inr g -> same_shape g f.
Proof.
  unfold process_frame, bind.
  destruct (transform_image f); [discriminate|].
  destruct (estimate_depth _); [discriminate|].
  destruct (visualize_depth _); [discriminate|].
  unfold resize_depth_to_frame. intros H.
  apply cv2_resize_shape in H. exact H.
Qed.

Lemma frame_loop_inv (n : nat) : forall st st' ex,
  frame_loop n st = (st', ex) ->
  (cap_path (p_cap st') = cap_path (p_cap st) /\
   cap_source (p_cap st') = cap_source (p_cap st) /\
   cap_released (p_cap st') = cap_released (p_cap st)) /\
  (out_path (p_out st') = out_path (p_out st) /\
   out_fourcc (p_out st') = out_fourcc (p_out st) /\
   out_fps (p_out st') = out_fps (p_out st) /\
   out_size (p_out st') = out_size (p_out st) /\
   out_isColor (p_out st') = out_isColor (p_out st) /\
   out_released (p_out st') = out_released (p_out st)) /\
  (files (p_world st') = files (p_world st) /\
   listing (p_world st') = listing (p_world st) /\
   cap_log (p_world st') = cap_log (p_world st) /\
   writer_log (p_world st') = writer_log (p_world st)) /\
  exists new,
    out_frames (p_out st') = out_frames (p_out st) ++ new /\
    (cap_reads (p_cap st') <= cap_reads (p_cap st) + n)%nat /\
    (cap_pos (p_cap st') - cap_pos (p_cap st)
       <= cap_reads (p_cap st') - cap_reads (p_cap st))%nat /\
    (cap_reads (p_cap st) <= cap_reads (p_cap st'))%nat /\
    (cap_pos (p_cap st) + List.length new <= cap_pos (p_cap st'))%nat /\
    forall i g, nth_error new i = Some g ->
      exists v f, cap_source (p_cap st) = Some v /\
                  stream v (cap_pos (p_cap st) + i) = Some f /\
                  process_frame f = inr g.
Proof.
  induction n as [|n IH]; intros st st' ex; cbn [frame_loop].
  - intros H. injection H as <- <-.
    split; [auto|]. split; [tauto|]. split; [auto|]. loop_stops.
  - unfold read.
    destruct (cap_source (p_cap st)) as [v|] eqn:Esrc.
    2:{ intros H. injection H as <- <-. proj_simpl.
        split; [auto|]. split; [tauto|]. split; [auto|]. loop_stops. }
    destruct (cap_released (p_cap st)) eqn:Erel.
    { intros H. injection H as <- <-. proj_simpl.
      split; [auto|]. split; [tauto|]. split; [auto|]. loop_stops. }
    destruct (stream v (cap_pos (p_cap st))) as [f|] eqn:Ef.
    2:{ intros H. injection H as <- <-. proj_simpl.
        split; [auto|]. split; [tauto|]. split; [auto|]. loop_stops. }
    destruct (process_frame f) as [e|g0] eqn:Eg.
    { intros H. injection H as <- <-. proj_simpl.
      split; [auto|]. split; [tauto|]. split; [auto|]. loop_stops. }
    destruct (waitKey (imshow "Depth Anywhere" g0 (p_world st))) as [k w2] eqn:Ek.
    assert (Hw2 : files w2 = files (p_world st) /\ listing w2 = listing (p_world st) /\
                  cap_log w2 = cap_log (p_world st) /\
                  writer_log w2 = writer_log (p_world st)).
    { revert Ek. unfold waitKey, imshow.
      destruct (existsb _ _); simpl;
        destruct (keys (p_world st)); intros H; injection H as _ <-; simpl; auto. }
    assert (Hnth : forall i g, nth_error (g0 :: nil) i = Some g ->
              exists v' f', Some v = Some v' /\
                stream v' (cap_pos (p_cap st) + i) = Some f' /\
                process_frame f' = inr g).
    { intros [|[|i]] g Hg; try discriminate. injection Hg as <-.
      exists v, f. rewrite Nat.add_0_r. auto. }
    destruct (is_quit k).
    + intros H. injection H as <- <-. proj_simpl.
      split; [auto|]. split; [tauto|]. split; [tauto|].
      exists [g0]. unfold write. proj_simpl. split; [reflexivity|]. do 4 (split; [lia|]). exact Hnth.
    + intros H. apply IH in H. unfold write in H. revert H. proj_simpl. intros H.
      destruct H as (Hc & Ho & Hw & new & Hfr & Hrd & Hpr & Hrr & Hps & Hnew).
      split; [tauto|]. split; [tauto|].
      split; [destruct Hw as (-> & -> & -> & ->); tauto|].
      exists (g0 :: new). rewrite Hfr, <- app_assoc. proj_simpl.
      split; [reflexivity|]. do 4 (split; [lia|]).
      intros [|i] g Hg.
      * apply (Hnth 0%nat g Hg).
      * simpl in Hg. destruct (Hnew i g Hg) as (v' & f' & Hv' & Hs & Hp).
        exists v', f'. replace (cap_pos (p_cap st) + S i)%nat
          with (S (cap_pos (p_cap st)) + i)%nat by lia. auto.
Qed.

(** ** One video *)

Lemma int_inject_Z (z : Z) : int (inject_Z z) = z.
Proof. unfold int. simpl. apply Z.quot_1_r. Qed.

Lemma process_opened_spec (w w' : World) (path output : string) (v : Video)
    (ex : loop_exit) :
  files w path = Some v ->
  process_opened (VideoCapture_open w path) output w = (w', ex) ->
  exists c o,
    ran_video v path output c o /\
    cap_log w' = cap_log w ++ [c] /\
    writer_log w' = writer_log w ++ [o] /\
    windows w' = [] /\
    files w' = files w /\ listing w' = listing w.
Proof.
  intros Hv. unfold process_opened.
  destruct (frame_loop _ _) as [st ex'] eqn:Hloop.
  intros H. injection H as <- <-.
  apply frame_loop_inv in Hloop. revert Hloop.
  unfold initialize_video_writer, VideoWriter_open, VideoCapture_open, get.
  proj_simpl. rewrite Hv. rewrite !int_inject_Z.
  intros ((Hc1 & Hc2 & Hc3) & (Ho1 & Ho2 & Ho3 & Ho4 & Ho5 & Ho6) &
          (Hw1 & Hw2 & Hw3 & Hw4) & new & Hfr & Hrd & Hpr & Hrr & Hps & Hnew).
  exists (release_capture (p_cap st)), (release_writer (p_out st)).
  unfold ran_video, finally, destroyAllWindows, set_windows, log_writer, log_capture,
    release_capture, release_writer.
  proj_simpl. rewrite Hw3, Hw4.
  split; [|tauto]. split; [tauto|]. split; [tauto|].
  rewrite Hfr in *. revert Hrd Hpr Hrr Hps. cbn [app]. proj_simpl. intros.
  split; [lia|]. split; [lia|]. split; [lia|].
  intros i g Hg. destruct (Hnew i g Hg) as (v' & f & Hv' & Hs & Hp).
  injection Hv' as <-. exists f. auto.
Qed.

Lemma process_video_opened (w : World) (path output : string) (v : Video) :
  files w path = Some v ->
  process_video path output w =
  (fst (process_opened (VideoCapture_open w path) output w),
   outcome (snd (process_opened (VideoCapture_open w path) output w))).
Proof.
  intros Hv. unfold process_video, isOpened, VideoCapture_open at 1.
  proj_simpl. rewrite Hv. cbn [negb].
  now destruct (process_opened _ _ _).
Qed.

Lemma process_video_unopened (w : World) (path output : string) :
  files w path = None ->
  process_video path output w =
  (log_capture (VideoCapture_open w path) w,
   inl (IOError ("Cannot open video " ++ path))).
Proof.
  intros Hv. unfold process_video, isOpened, VideoCapture_open at 1.
  proj_simpl. now rewrite Hv.
Qed.

Lemma process_video_spec (w w' : World) (path output : string) (r : result unit) :
  process_video path output w = (w', r) ->
  files w' = files w /\ listing w' = listing w /\
  ((files w path = None /\
    r = inl (IOError ("Cannot open video " ++ path)) /\
    w' = log_capture (VideoCapture_open w path) w) \/
   (exists v c o,
      files w path = Some v /\ ran_video v path output c o /\
      cap_log w' = cap_log w ++ [c] /\
      writer_log w' = writer_log w ++ [o] /\ windows w' = [])).
Proof.
  destruct (files w path) as [v|] eqn:Hv.
  - rewrite (process_video_opened _ _ _ _ Hv).
    destruct (process_opened _ _ _) as [w1 ex] eqn:Hp. cbn [fst snd].
    intros H. injection H as <- <-.
    destruct (process_opened_spec _ _ _ _ _ _ Hv Hp)
      as (c & o & Hran & Hc & Ho & Hwin & Hf & Hl).
    split; [exact Hf|]. split; [exact Hl|]. right. exists v, c, o. auto.
  - rewrite (process_video_unopened _ _ _ Hv).
    intros H. injection H as <- <-. split; [reflexivity|]. split; [reflexivity|].
    left. auto.
Qed.

(** ** The batch *)

Lemma for_each_video_app (input_folder output_folder : string)
    (a b : list string) (w : World) :
  for_each_video input_folder output_folder (a ++ b) w =
  match for_each_video input_folder output_folder a w with
  | (w1, inl e) => (w1, inl e)
  | (w1, inr _) => for_each_video input_folder output_folder b w1
  end.
Proof.
  revert w. induction a as [|f a IH]; intros w; cbn [for_each_video app].
  - reflexivity.
  - destruct (process_video _ _ w) as [w1 [e|u]]; [reflexivity | apply IH].
Qed.

Lemma for_each_video_log (input_folder output_folder : string)
    (fs : list string) : forall (w w' : World) (r : result unit),
  for_each_video input_folder output_folder fs w = (w', r) ->
  files w' = files w /\ listing w' = listing w /\
  (exists caps,
     cap_log w' = cap_log w ++ caps /\
     Forall (fun c => exists F, In F fs /\ cap_path c = os_path_join input_folder F)
       caps) /\
  exists done rest outs,
    fs = done ++ rest /\
    writer_log w' = writer_log w ++ outs /\
    Forall2 (output_of w input_folder output_folder) done outs /\
    (r = inr tt -> rest = []).
Proof.
  induction fs as [|f fs IH]; intros w w' r; cbn [for_each_video].
  - intros H. injection H as <- <-. split; [reflexivity|]. split; [reflexivity|].
    split; [exists []; rewrite app_nil_r; auto|].
    exists [], [], []. rewrite (app_nil_r (writer_log w)).
    split; [reflexivity|]. split; [reflexivity|]. split; [constructor | auto].
  - destruct (process_video _ _ w) as [w1 r1] eqn:Hp.
    apply process_video_spec in Hp.
    destruct Hp as (Hf & Hl & [(Hnone & -> & ->) | (v & c & o & Hv & Hran & Hc & Ho & Hwin)]).
    + intros H. injection H as <- <-. split; [reflexivity|]. split; [reflexivity|].
      split.
      { eexists. split; [reflexivity|]. constructor; [|constructor].
        exists f. split; [now left | reflexivity]. }
      exists [], (f :: fs), []. cbn [log_capture writer_log].
      rewrite (app_nil_r (writer_log w)).
      split; [reflexivity|]. split; [reflexivity|]. split; [constructor | discriminate].
    + assert (Hout : output_of w input_folder output_folder f o)
        by (exists v, c; auto).
      assert (Hcap : exists F, In F (f :: fs) /\ cap_path c = os_path_join input_folder F).
      { exists f. split; [now left|]. now destruct Hran as ((-> & _) & _). }
      destruct r1 as [e|u].
      * intros H. injection H as <- <-. split; [exact Hf|]. split; [exact Hl|].
        split; [exists [c]; split; [exact Hc | constructor; [exact Hcap | constructor]]|].
        exists [f], fs, [o].
        split; [reflexivity|]. split; [exact Ho|].
        split; [repeat constructor; exact Hout | discriminate].
      * intros H. apply IH in H.
        destruct H as (Hf' & Hl' & (caps & Hcl & Hcaps) &
                       done & rest & outs & -> & Hlog & Hall & Hr).
        split; [congruence|]. split; [congruence|].
        split.
        { exists (c :: caps). split; [rewrite Hcl, Hc, <- app_assoc; reflexivity|].
          constructor; [exact Hcap|].
          eapply Forall_impl; [|exact Hcaps].
          intros c' (F & HF & HcF). exists F. split; [now right | exact HcF]. }
        exists (f :: done), rest, (o :: outs).
        split; [reflexivity|]. split; [rewrite Hlog, Ho, <- app_assoc; reflexivity|].
        split; [|exact Hr].
        constructor; [exact Hout|].
        eapply Forall2_impl; [|exact Hall].
        intros F o' (v' & c' & Hv' & Hran'). exists v', c'.
        rewrite <- Hf. auto.
Qed.

(** A video whose frames are all processed does not end in an exception. *)
Lemma frame_loop_no_raise (n : nat) : forall (st : Proc) (v : Video) (e : exn),
  cap_source (p_cap st) = Some v ->
  frames_processable v ->
  snd (frame_loop n st) <> Raised e.
Proof.
  induction n as [|n IH]; intros st v e Hsrc Hproc; cbn [frame_loop].
  - discriminate.
  - unfold read. rewrite Hsrc.
    destruct (cap_released (p_cap st)); [discriminate|].
    destruct (stream v (cap_pos (p_cap st))) as [f|] eqn:Ef; [|discriminate].
    destruct (Hproc _ _ Ef) as (g & Hg). rewrite Hg.
    destruct (waitKey _) as [k w2]. destruct (is_quit k); [discriminate|].
    apply (IH _ v); [reflexivity | exact Hproc].
Qed.

Lemma process_video_ok (w : World) (path output : string) (v : Video) :
  files w path = Some v ->
  frames_processable v ->
  snd (process_video path output w) = inr tt.
Proof.
  intros Hv Hproc. rewrite (process_video_opened _ _ _ _ Hv). cbn [snd].
  unfold process_opened.
  pose proof (frame_loop_no_raise
                (Z.to_nat (int (get (VideoCapture_open w path) CAP_PROP_FRAME_COUNT)))
                (mk_Proc w (VideoCapture_open w path)
                   (initialize_video_writer (VideoCapture_open w path) output)) v) as Hno.
  destruct (frame_loop _ _) as [st ex]. cbn [snd] in *.
  destruct ex as [| | |e]; try reflexivity.
  exfalso. apply (Hno e); [exact Hv | exact Hproc | reflexivity].
Qed.

(** The whole of a run of the loop over the files: the entries it tried, in
    order, with the capture of each and the writer of each that opened. *)
Lemma for_each_video_trace (input_folder output_folder : string)
    (fs : list string) : forall (w w' : World) (r : result unit),
  for_each_video input_folder output_folder fs w = (w', r) ->
  files w' = files w /\
  exists tried rest caps outs,
    fs = tried ++ rest /\
    cap_log w' = cap_log w ++ caps /\
    writer_log w' = writer_log w ++ outs /\
    Forall2 (fun F c => cap_path c = os_path_join input_folder F /\
                        cap_source c = files w (os_path_join input_folder F))
      tried caps /\
    Forall2 (output_of w input_folder output_folder)
      (filter (openable w input_folder) tried) outs /\
    (r = inr tt -> rest = []) /\
    ((forall F, In F fs -> processable w input_folder F) -> r = inr tt).
Proof.
  induction fs as [|f fs IH]; intros w w' r; cbn [for_each_video].
  - intros H. injection H as <- <-. split; [reflexivity|].
    exists [], [], [], [].
    rewrite (app_nil_r (cap_log w)), (app_nil_r (writer_log w)). cbn [filter].
    split; [reflexivity|]. split; [reflexivity|]. split; [reflexivity|].
    split; [constructor|]. split; [constructor|]. auto.
  - destruct (process_video _ _ w) as [w1 r1] eqn:Hp.
    pose proof Hp as Hspec. apply process_video_spec in Hspec.
    destruct Hspec
      as (Hf & Hl & [(Hnone & -> & ->) | (v & c & o & Hv & Hran & Hc & Ho & Hwin)]).
    + intros H. injection H as <- <-. split; [reflexivity|].
      exists [f], fs, [VideoCapture_open w (os_path_join input_folder f)], [].
      cbn [log_capture cap_log writer_log]. rewrite (app_nil_r (writer_log w)).
      split; [reflexivity|]. split; [reflexivity|]. split; [reflexivity|].
      split; [constructor; [split; reflexivity | constructor]|].
      split; [cbn [filter]; unfold openable; rewrite Hnone; constructor|].
      split; [discriminate|].
      intros Hall. destruct (Hall f (or_introl eq_refl)) as (v & Hv & _). congruence.
    + assert (Hout : output_of w input_folder output_folder f o)
        by (exists v, c; auto).
      assert (Hopen : openable w input_folder f = true)
        by (unfold openable; now rewrite Hv).
      assert (Hcap : cap_path c = os_path_join input_folder f /\
                     cap_source c = files w (os_path_join input_folder f)).
      { destruct Hran as ((E1 & E2 & _) & _). rewrite E1, E2, Hv. auto. }
      destruct r1 as [e|u].
      * intros H. injection H as <- <-. split; [exact Hf|].
        exists [f], fs, [c], [o].
        split; [reflexivity|]. split; [exact Hc|]. split; [exact Ho|].
        split; [constructor; [exact Hcap | constructor]|].
        split; [cbn [filter]; rewrite Hopen; constructor; [exact Hout | constructor]|].
        split; [discriminate|].
        intros Hall. destruct (Hall f (or_introl eq_refl)) as (v' & Hv' & Hproc).
        rewrite Hv in Hv'. injection Hv' as <-.
        pose proof (process_video_ok w (os_path_join input_folder f)
                      (os_path_join output_folder ("processed_" ++ f)) v Hv Hproc) as Hok.
        rewrite Hp in Hok. discriminate Hok.
      * intros H. apply IH in H.
        destruct H as (Hf' & tried & rest & caps & outs & -> & Hcl & Hlog & Hcaps &
                       Houts & Hr & Hpos).
        split; [congruence|].
        exists (f :: tried), rest, (c :: caps), (o :: outs).
        split; [reflexivity|].
        split; [rewrite Hcl, Hc, <- app_assoc; reflexivity|].
        split; [rewrite Hlog, Ho, <- app_assoc; reflexivity|].
        split.
        { constructor; [exact Hcap|]. eapply Forall2_impl; [|exact Hcaps].
          intros F c' (E1 & E2). rewrite Hf in E2. auto. }
        split.
        { cbn [filter]. rewrite Hopen. constructor; [exact Hout|].
          replace (filter (openable w input_folder) tried)
            with (filter (openable w1 input_folder) tried)
            by (unfold openable; rewrite Hf; reflexivity).
          eapply Forall2_impl; [|exact Houts].
          intros F o' (v' & c' & Hv' & Hran'). exists v', c'. rewrite <- Hf. auto. }
        split; [exact Hr|].
        intros Hall. apply Hpos. intros F HF.
        destruct (Hall F (or_intror HF)) as (v' & Hv' & Hp'). exists v'.
        rewrite Hf. auto.
Qed.

(** The paths of the writers of a run. *)
Lemma outputs_paths (w : World) (input_folder output_folder : string)
    (done : list string) (outs : list VideoWriter) :
  Forall2 (output_of w input_folder output_folder) done outs ->
  map out_path outs
  = map (fun F => os_path_join output_folder ("processed_" ++ F)) done.
Proof.
  induction 1 as [|F o done outs HF _ IH]; [reflexivity|].
  cbn [map]. f_equal; [|exact IH].
  destruct HF as (v & c & _ & _ & (Hp & _) & _). exact Hp.
Qed.

(** When every file of the list is processable, all are tried and all
    open. *)
Lemma all_processable_all_open (w : World) (input_folder : string)
    (fs : list string) :
  (forall F, In F fs -> processable w input_folder F) ->
  filter (openable w input_folder) fs = fs.
Proof.
  induction fs as [|f fs IH]; intros Hall; [reflexivity|]. cbn [filter].
  destruct (Hall f (or_introl eq_refl)) as (v & Hv & _).
  unfold openable at 1. rewrite Hv. f_equal. apply IH.
  intros F HF. apply Hall. now right.
Qed.

(** ** The quit key *)

Lemma frame_loop_quit (pre : list Z) : forall (n : nat) (st : Proc) (v : Video)
    (k : Z) (post : list Z),
  cap_source (p_cap st) = Some v ->
  cap_released (p_cap st) = false ->
  keys (p_world st) = pre ++ k :: post ->
  Forall (fun x => is_quit x = false) pre ->
  is_quit k = true ->
  (List.length pre < n)%nat ->
  (forall j, (j <= List.length pre)%nat ->
     exists f g, stream v (cap_pos (p_cap st) + j) = Some f /\
                 process_frame f = inr g) ->
  exists st',
    frame_loop n st = (st', QuitKey) /\
    keys (p_world st') = post /\
    cap_reads (p_cap st') = (cap_reads (p_cap st) + S (List.length pre))%nat /\
    cap_pos (p_cap st') = (cap_pos (p_cap st) + S (List.length pre))%nat /\
    List.length (out_frames (p_out st')) =
      (List.length (out_frames (p_out st)) + S (List.length pre))%nat.
Proof.
  induction pre as [|k0 pre IH]; intros n st v k post Hsrc Hrel Hkeys Hpre Hk Hn Hfr;
    (destruct n as [|n]; [cbn [List.length] in Hn; lia|]);
    destruct (Hfr 0%nat (Nat.le_0_l _)) as (f & g & Hf & Hg);
    rewrite Nat.add_0_r in Hf;
    cbn [frame_loop]; unfold read; rewrite Hsrc, Hrel, Hf, Hg;
    unfold waitKey, imshow;
    assert (Hkeys' : keys (if existsb (String.eqb "Depth Anywhere") (windows (p_world st))
                           then p_world st
                           else set_windows (windows (p_world st) ++ ["Depth Anywhere"%string])
                                  (p_world st)) = keys (p_world st))
      by (destruct (existsb _ _); reflexivity);
    rewrite Hkeys', Hkeys; cbn [app].
  - rewrite Hk. eexists. split; [reflexivity|].
    unfold write. proj_simpl. rewrite length_app. cbn [List.length].
    repeat split; lia.
  - inversion Hpre as [|? ? Hk0 Hpre']; subst. rewrite Hk0.
    match goal with |- exists st', frame_loop n ?s = _ /\ _ =>
      destruct (IH n s v k post) as (st' & Hloop & Hks & Hrd & Hps & Hlen) end;
      proj_simpl; auto.
    + cbn [List.length] in Hn. lia.
    + intros j Hj. destruct (Hfr (S j)) as (f' & g' & Hf' & Hg').
      * cbn [List.length]. lia.
      * exists f', g'. rewrite <- Hf'. split; [f_equal; lia | exact Hg'].
    + exists st'. split; [exact Hloop|]. split; [exact Hks|].
      revert Hrd Hps Hlen. unfold write. proj_simpl. rewrite length_app.
      cbn [List.length]. intros. repeat split; lia.
Qed.

(** ** The claims on one video *)

(** C1: for a video of [N] frames, the output of [process_video] holds at
    most [N] frames, and its [i]-th frame has the height and width of the
    [i]-th frame of the source, whatever the model and the interpolation
    compute; so when all source frames are [H] by [W], so are all output
    frames. *)
Theorem output_frames_bounded_and_sized (w w' : World) (path output : string)
    (v : Video) (N : nat) (r : result unit) :
  files w path = Some v ->
  has_frames v N ->
  process_video path output w = (w', r) ->
  exists o,
    writer_log w' = writer_log w ++ [o] /\ out_path o = output /\
    (List.length (out_frames o) <= N)%nat /\
    (forall i g, nth_error (out_frames o) i = Some g ->
       exists f, stream v i = Some f /\ same_shape g f) /\
    (forall H W, (forall i f, stream v i = Some f -> shape0 f = H /\ shape1 f = W) ->
       Forall (fun g => shape0 g = H /\ shape1 g = W) (out_frames o)).
Proof.
  intros Hv HN Hrun. apply process_video_spec in Hrun.
  destruct Hrun as (_ & _ & [(Hnone & _) | (v' & c & o & Hv' & Hran & _ & Ho & _)]);
    [congruence|].
  rewrite Hv in Hv'. injection Hv' as <-.
  destruct Hran as (_ & (Hpath & _) & (_ & _ & _ & Hfrom)).
  assert (Hsh : forall i g, nth_error (out_frames o) i = Some g ->
            exists f, stream v i = Some f /\ same_shape g f).
  { intros i g Hg. destruct (Hfrom i g Hg) as (f & Hf & Hp).
    exists f. split; [exact Hf | now apply process_frame_shape]. }
  exists o. split; [exact Ho|]. split; [exact Hpath|]. split; [|split; [exact Hsh|]].
  - destruct (le_lt_dec (List.length (out_frames o)) N) as [Hle|Hlt]; [exact Hle|].
    destruct (nth_error (out_frames o) N) as [g|] eqn:Hg.
    + destruct (Hsh N g Hg) as (f & Hf & _).
      destruct (HN N) as (_ & Hnone). rewrite Hnone in Hf by lia. discriminate.
    + apply nth_error_None in Hg. lia.
  - intros H W Hall. apply Forall_forall. intros g Hin.
    apply In_nth_error in Hin. destruct Hin as (i & Hi).
    destruct (Hsh i g Hi) as (f & Hf & Hs0 & Hs1).
    destruct (Hall i f Hf) as (<- & <-). auto.
Qed.

(** C8: however the frame loop of an opened video is left (frames
    exhausted, range exhausted, quit key, or an exception), the capture and
    the writer are released and no preview window is left open; an
    exception is raised again only after that. *)
Theorem resources_released_on_every_exit (w w' : World) (path output : string)
    (v : Video) (ex : loop_exit) :
  files w path = Some v ->
  process_opened (VideoCapture_open w path) output w = (w', ex) ->
  process_video path output w = (w', outcome ex) /\
  exists c o,
    cap_log w' = cap_log w ++ [c] /\ cap_path c = path /\
    writer_log w' = writer_log w ++ [o] /\ out_path o = output /\
    cap_released c = true /\ isOpened c = false /\
    out_released o = true /\ windows w' = [].
Proof.
  intros Hv Hrun. split.
  - rewrite (process_video_opened _ _ _ _ Hv), Hrun. reflexivity.
  - destruct (process_opened_spec _ _ _ _ _ _ Hv Hrun)
      as (c & o & Hran & Hc & Ho & Hwin & _).
    destruct Hran as ((Hp & Hs & Hrel) & (Hop & _ & _ & _ & _ & Horel) & _).
    exists c, o. unfold isOpened. rewrite Hs, Hrel. auto 10.
Qed.

(** C10: the frame loop of an opened video always ends, after at most as
    many iterations (calls of [read]) as the container reports frames;
    no more frames than that are read or written, however long the stream
    is. *)
Theorem frame_loop_bounded_by_reported_count (w : World) (path output : string)
    (v : Video) :
  files w path = Some v ->
  exists w' r c o,
    process_video path output w = (w', r) /\
    cap_log w' = cap_log w ++ [c] /\ writer_log w' = writer_log w ++ [o] /\
    Z.of_nat (cap_reads c) <= Z.max 0 (reported_frames v) /\
    (cap_pos c <= cap_reads c)%nat /\
    (List.length (out_frames o) <= cap_pos c)%nat.
Proof.
  intros Hv. destruct (process_video path output w) as [w' r] eqn:Hrun.
  exists w', r. apply process_video_spec in Hrun.
  destruct Hrun as (_ & _ & [(Hnone & _) | (v' & c & o & Hv' & Hran & Hc & Ho & _)]);
    [congruence|].
  rewrite Hv in Hv'. injection Hv' as <-.
  destruct Hran as (_ & _ & (Hrd & Hps & Hlen & _)).
  exists c, o. repeat split; auto. lia.
Qed.

(** C7: when the quit key arrives at the poll that follows frame number
    [length pre], the loop ends there: [process_video] returns normally,
    exactly the frames up to that one were read and written, the capture,
    the writer and the window are released, and the batch goes on with the
    next file. *)
Theorem quit_key_ends_current_video_only (w : World) (path output : string)
    (v : Video) (pre : list Z) (k : Z) (post : list Z) :
  files w path = Some v ->
  keys w = pre ++ k :: post ->
  Forall (fun x => is_quit x = false) pre ->
  is_quit k = true ->
  Z.of_nat (List.length pre) < reported_frames v ->
  (forall j, (j <= List.length pre)%nat ->
     exists f g, stream v j = Some f /\ process_frame f = inr g) ->
  exists w' c o,
    process_video path output w = (w', inr tt) /\
    cap_log w' = cap_log w ++ [c] /\ writer_log w' = writer_log w ++ [o] /\
    cap_reads c = S (List.length pre) /\ cap_pos c = S (List.length pre) /\
    List.length (out_frames o) = S (List.length pre) /\
    cap_released c = true /\ out_released o = true /\ windows w' = [] /\
    keys w' = post /\
    forall input_folder output_folder F rest,
      path = os_path_join input_folder F ->
      output = os_path_join output_folder ("processed_" ++ F) ->
      for_each_video input_folder output_folder (F :: rest) w =
      for_each_video input_folder output_folder rest w'.
Proof.
  intros Hv Hkeys Hpre Hk Hn Hfr.
  destruct (frame_loop_quit pre (Z.to_nat (reported_frames v))
              (mk_Proc w (VideoCapture_open w path)
                 (initialize_video_writer (VideoCapture_open w path) output))
              v k post) as (st' & Hloop & Hks & Hrd & Hps & Hlen);
    try (proj_simpl; auto; lia).
  assert (Hpo : process_opened (VideoCapture_open w path) output w
                = (finally st', QuitKey)).
  { unfold process_opened.
    replace (int (get (VideoCapture_open w path) CAP_PROP_FRAME_COUNT))
      with (reported_frames v).
    - now rewrite Hloop.
    - unfold get, VideoCapture_open. proj_simpl. now rewrite Hv, int_inject_Z. }
  assert (Hpv : process_video path output w = (finally st', inr tt)).
  { rewrite (process_video_opened _ _ _ _ Hv), Hpo. reflexivity. }
  apply frame_loop_inv in Hloop.
  destruct Hloop as (_ & _ & (_ & _ & Hcl & Hwl) & _).
  revert Hks Hrd Hps Hlen Hcl Hwl.
  unfold initialize_video_writer, VideoWriter_open, VideoCapture_open.
  proj_simpl. intros.
  exists (finally st'), (release_capture (p_cap st')), (release_writer (p_out st')).
  split; [exact Hpv|].
  split; [unfold finally, log_writer, log_capture; proj_simpl; now rewrite Hcl|].
  split; [unfold finally, log_writer, log_capture; proj_simpl; now rewrite Hwl|].
  unfold release_capture, release_writer. proj_simpl.
  do 3 (split; [lia|]). do 3 (split; [reflexivity|]). split; [exact Hks|].
  intros input_folder output_folder F rest -> ->.
  cbn [for_each_video]. now rewrite Hpv.
Qed.


(** ** The claims on the batch *)

(** C4: when the files before [bad] were processed without error and
    [bad] cannot be opened, [process_video] raises IOError on it and
    [batch_process_videos] ends with that same exception; the world it
    leaves is the one after the files before [bad] plus the capture that
    failed to open, so nothing of the files after [bad] is opened or
    written. *)
Theorem unopenable_video_aborts_batch (w w1 : World)
    (input_folder output_folder : string) (entries pre rest : list string)
    (bad : string) :
  listing w input_folder = Some entries ->
  filter is_video entries = pre ++ bad :: rest ->
  for_each_video input_folder output_folder pre w = (w1, inr tt) ->
  files w (os_path_join input_folder bad) = None ->
  let path := os_path_join input_folder bad in
  let failed := log_capture (VideoCapture_open w1 path) w1 in
  let e := IOError ("Cannot open video " ++ path)%string in
  process_video path (os_path_join output_folder ("processed_" ++ bad)%string) w1
    = (failed, inl e) /\
  batch_process_videos input_folder output_folder w = (failed, inl e) /\
  writer_log failed = writer_log w1 /\
  cap_log failed = cap_log w1 ++ [VideoCapture_open w1 path] /\
  isOpened (VideoCapture_open w1 path) = false.
Proof.
  intros Hl Hfs Hpre Hbad path failed e.
  assert (Hfiles : files w1 = files w)
    by (apply for_each_video_log in Hpre; tauto).
  assert (Hnone : files w1 path = None) by (rewrite Hfiles; exact Hbad).
  assert (Hpv : process_video path
                  (os_path_join output_folder ("processed_" ++ bad)%string) w1
                = (failed, inl e))
    by (apply process_video_unopened; exact Hnone).
  split; [exact Hpv|]. split; [|split; [reflexivity|split; [reflexivity|]]].
  - unfold batch_process_videos, listdir. rewrite Hl, Hfs.
    rewrite for_each_video_app, Hpre. cbn [for_each_video].
    fold path. now rewrite Hpv.
  - unfold isOpened, VideoCapture_open. proj_simpl. now rewrite Hnone.
Qed.


(** C6: the entries [batch_process_videos] selects are exactly those of
    the folder whose extension is, in any letter case, .mp4, .avi or .mov;
    the captures it opens are those of the selected entries it tried, in
    order, and the outputs it writes those of the tried entries that
    opened; an entry with another extension is not tried and has no output
    file.  When every selected entry opens and its frames are processed
    without an exception, the run returns normally, having opened every
    selected entry and written one output for each. *)
Theorem only_video_extensions_processed (w w' : World)
    (input_folder output_folder : string) (entries : list string)
    (r : result unit) :
  listing w input_folder = Some entries ->
  batch_process_videos input_folder output_folder w = (w', r) ->
  (forall f, In f (filter is_video entries) <-> In f entries /\ has_video_extension f) /\
  exists tried rest caps outs,
    filter is_video entries = tried ++ rest /\
    cap_log w' = cap_log w ++ caps /\
    writer_log w' = writer_log w ++ outs /\
    map cap_path caps = map (os_path_join input_folder) tried /\
    map out_path outs
      = map (fun F => os_path_join output_folder ("processed_" ++ F)%string)
          (filter (openable w input_folder) tried) /\
    (forall f, In f entries -> ~ has_video_extension f ->
       ~ In f tried /\
       ~ In (os_path_join output_folder ("processed_" ++ f)%string) (map out_path outs)) /\
    (r = inr tt -> rest = []) /\
    ((forall F, In F entries -> has_video_extension F -> processable w input_folder F) ->
     r = inr tt /\
     map cap_path caps = map (os_path_join input_folder) (filter is_video entries) /\
     map out_path outs
       = map (fun F => os_path_join output_folder ("processed_" ++ F)%string)
           (filter is_video entries)).
Proof.
  intros Hl Hrun.
  assert (Hsel : forall f, In f (filter is_video entries)
                           <-> In f entries /\ has_video_extension f).
  { intros f. rewrite filter_In, is_video_spec. reflexivity. }
  split; [exact Hsel|].
  unfold batch_process_videos, listdir in Hrun.
  rewrite Hl in Hrun. apply for_each_video_trace in Hrun.
  destruct Hrun as (_ & tried & rest & caps & outs & Hfs & Hcl & Hlog & Hcaps &
                    Houts & Hr & Hpos).
  exists tried, rest, caps, outs.
  assert (Hcp : map cap_path caps = map (os_path_join input_folder) tried).
  { clear - Hcaps. induction Hcaps as [|F c tried caps (HF & _) _ IH]; [reflexivity|].
    cbn [map]. now rewrite HF, IH. }
  pose proof (outputs_paths _ _ _ _ _ Houts) as Hpaths.
  split; [exact Hfs|]. split; [exact Hcl|]. split; [exact Hlog|].
  split; [exact Hcp|]. split; [exact Hpaths|].
  split; [|split; [exact Hr|]].
  - intros f Hin Hno.
    assert (Hnt : ~ In f tried).
    { intros Ht. apply Hno. apply (Hsel f). rewrite Hfs. apply in_or_app. now left. }
    split; [exact Hnt|].
    intros Hout. rewrite Hpaths in Hout.
    apply in_map_iff in Hout. destruct Hout as (F & Heq & HF).
    apply join_processed_inj in Heq. subst F.
    apply filter_In in HF. tauto.
  - intros Hall.
    assert (Hall' : forall F, In F (filter is_video entries) ->
                              processable w input_folder F).
    { intros F HF. apply Hsel in HF. apply Hall; tauto. }
    pose proof (Hpos Hall') as Hok.
    assert (Erest : rest = []) by (apply Hr; exact Hok). subst rest.
    rewrite app_nil_r in Hfs. subst tried.
    rewrite (all_processable_all_open _ _ _ Hall') in Hpaths.
    auto.
Qed.

(** ** Rounding to float32 *)

Lemma pow2_pos (k : Z) : (0 < 2 ^ k)%Q.
Proof. apply Qpower_0_lt. reflexivity. Qed.

Lemma pow2_le (a b : Z) : a <= b -> (2 ^ a <= 2 ^ b)%Q.
Proof. intros H. apply Qpower_le_compat_l; [exact H | discriminate]. Qed.

Lemma pow2_plus (a b : Z) : (2 ^ (a + b) == 2 ^ a * 2 ^ b)%Q.
Proof. apply Qpower_plus. discriminate. Qed.

Lemma pow2_nat (a : Z) : 0 <= a -> (2 ^ a == inject_Z (2 ^ a))%Q.
Proof. intros H. symmetry. apply (Zpower_Qpower 2 a H). Qed.

Lemma rne_near (x : Q) :
  (inject_Z (rne x) - (1 # 2) <= x /\ x <= inject_Z (rne x) + (1 # 2))%Q.
Proof.
  unfold rne.
  pose proof (Qfloor_le x) as Hlo. pose proof (Qlt_floor x) as Hhi.
  rewrite inject_Z_plus in Hhi. change (inject_Z 1) with 1%Q in Hhi.
  destruct (Qcompare_spec (x - inject_Z (Qfloor x)) (1 # 2)) as [E | E | E].
  - destruct (Z.even (Qfloor x)); [|rewrite inject_Z_plus; change (inject_Z 1) with 1%Q];
      split; lra.
  - split; lra.
  - rewrite inject_Z_plus. change (inject_Z 1) with 1%Q. split; lra.
Qed.

Lemma rne_comp (x y : Q) : (x == y)%Q -> rne x = rne y.
Proof.
  intros E. unfold rne. rewrite (Qfloor_comp _ _ E).
  assert (E' : (x - inject_Z (Qfloor y) == y - inject_Z (Qfloor y))%Q) by (rewrite E; reflexivity).
  now rewrite (Qcompare_comp _ _ E' _ _ (Qeq_refl (1 # 2))).
Qed.

Lemma Z_of_Qle (a b : Z) : (inject_Z a <= inject_Z b)%Q -> a <= b.
Proof. now rewrite <- Zle_Qle. Qed.

Lemma rne_le (x y : Q) : (x <= y)%Q -> rne x <= rne y.
Proof.
  intros H. destruct (Z_le_gt_dec (rne x) (rne y)) as [Hle | Hgt]; [exact Hle|].
  exfalso.
  destruct (rne_near x) as (Hx & _). destruct (rne_near y) as (_ & Hy).
  assert (H1 : (inject_Z (rne y) + 1 <= inject_Z (rne x))%Q).
  { change 1%Q with (inject_Z 1). rewrite <- inject_Z_plus, <- Zle_Qle. lia. }
  assert (E : (x == y)%Q) by (apply Qle_antisym; lra).
  apply rne_comp in E. lia.
Qed.

Lemma rne_Z (z : Z) : rne (inject_Z z) = z.
Proof.
  destruct (rne_near (inject_Z z)) as (Hlo & Hhi). revert Hlo Hhi.
  generalize (rne (inject_Z z)). intros k.
  unfold Qle, Qminus, Qplus, Qopp, inject_Z. cbn. lia.
Qed.

Lemma ilog2_bounds (x : Q) :
  (0 < x)%Q ->
  let k := Z.log2 (Qnum x) - Z.log2 (Zpos (Qden x)) in
  (2 ^ (k - 1) < x /\ x < 2 ^ (k + 1))%Q.
Proof.
  intros Hx. destruct x as [n d]. cbn [Qnum Qden].
  assert (Hn : 0 < n) by (revert Hx; unfold Qlt; cbn; lia).
  set (a := Z.log2 n). set (b := Z.log2 (Z.pos d)).
  assert (Ha0 : 0 <= a) by apply Z.log2_nonneg.
  assert (Hb0 : 0 <= b) by apply Z.log2_nonneg.
  destruct (Z.log2_spec n Hn) as (Ha1 & Ha2). fold a in Ha1, Ha2.
  destruct (Z.log2_spec (Z.pos d) ltac:(lia)) as (Hb1 & Hb2). fold b in Hb1, Hb2.
  assert (Hxd : ((n # d) * inject_Z (Z.pos d) == inject_Z n)%Q).
  { unfold Qeq, Qmult, inject_Z. cbn. lia. }
  assert (Hpos : (0 < n # d)%Q) by exact Hx.
  cbv zeta. split.
  - apply (Qmult_lt_r _ _ (2 ^ (b + 1))%Q (pow2_pos _)).
    rewrite <- pow2_plus. replace (a - b - 1 + (b + 1)) with a by lia.
    rewrite (pow2_nat a Ha0), (pow2_nat (b + 1)) by lia.
    apply Qle_lt_trans with (inject_Z n); [rewrite <- Zle_Qle; exact Ha1|].
    rewrite <- Hxd. apply Qmult_lt_l; [exact Hpos|].
    rewrite <- Zlt_Qlt. replace (b + 1) with (Z.succ b) by lia. exact Hb2.
  - apply (Qmult_lt_r _ _ (2 ^ b)%Q (pow2_pos _)).
    rewrite <- pow2_plus. replace (a - b + 1 + b) with (a + 1) by lia.
    rewrite (pow2_nat b Hb0), (pow2_nat (a + 1)) by lia.
    apply Qle_lt_trans with (inject_Z n).
    + rewrite <- Hxd. apply Qmult_le_l; [exact Hpos|]. rewrite <- Zle_Qle. exact Hb1.
    + rewrite <- Zlt_Qlt. replace (a + 1) with (Z.succ a) by lia. exact Ha2.
Qed.

Lemma ilog2_spec (x : Q) :
  (0 < x)%Q -> (2 ^ ilog2 x <= x /\ x < 2 ^ (ilog2 x + 1))%Q.
Proof.
  intros Hx. destruct (ilog2_bounds x Hx) as (Hlo & Hhi). cbv zeta in Hlo, Hhi.
  unfold ilog2. set (k := Z.log2 (Qnum x) - Z.log2 (Z.pos (Qden x))) in *.
  destruct (Qle_bool (2 ^ k) x) eqn:E.
  - apply Qle_bool_iff in E. split; [exact E | exact Hhi].
  - assert (E' : (x < 2 ^ k)%Q).
    { apply Qnot_le_lt. intros H. apply Qle_bool_iff in H. congruence. }
    replace (k - 1 + 1) with k by lia. split; [apply Qlt_le_weak; exact Hlo | exact E'].
Qed.

Lemma ilog2_le (x y : Q) : (0 < x)%Q -> (x <= y)%Q -> ilog2 x <= ilog2 y.
Proof.
  intros Hx Hxy.
  destruct (ilog2_spec x Hx) as (Hx1 & _).
  destruct (ilog2_spec y (Qlt_le_trans _ _ _ Hx Hxy)) as (_ & Hy2).
  assert (H : (2 ^ ilog2 x < 2 ^ (ilog2 y + 1))%Q).
  { eapply Qle_lt_trans; [exact Hx1|]. eapply Qle_lt_trans; [exact Hxy | exact Hy2]. }
  apply Qpower_lt_compat_l_inv in H; [lia | reflexivity].
Qed.

Lemma round_pos_unfold (a : Q) :
  round_pos a = (inject_Z (rne (a / 2 ^ (binade a - 23))) * 2 ^ (binade a - 23))%Q.
Proof. reflexivity. Qed.

Lemma round_pos_nonneg (a : Q) : (0 < a)%Q -> (0 <= round_pos a)%Q.
Proof.
  intros Ha. rewrite round_pos_unfold.
  apply Qmult_le_0_compat; [|apply Qlt_le_weak, pow2_pos].
  change 0%Q with (inject_Z 0). rewrite <- Zle_Qle.
  apply Z.le_trans with (rne (inject_Z 0)); [rewrite rne_Z; lia|].
  apply rne_le. apply Qle_shift_div_l; [apply pow2_pos|].
  change (inject_Z 0) with 0%Q. rewrite Qmult_0_l. apply Qlt_le_weak, Ha.
Qed.

(** The rounded value stays in the closed binade of the argument. *)
Lemma round_pos_upper (a : Q) :
  (0 < a)%Q -> (round_pos a <= 2 ^ (binade a + 1))%Q.
Proof.
  intros Ha. rewrite round_pos_unfold.
  set (e := binade a).
  assert (He : ilog2 a <= e) by (unfold e, binade; lia).
  destruct (ilog2_spec a Ha) as (_ & Hhi).
  assert (Hlt : (a <= 2 ^ (e + 1))%Q).
  { apply Qlt_le_weak, Qlt_le_trans with (2 ^ (ilog2 a + 1))%Q; [exact Hhi|].
    apply pow2_le. lia. }
  assert (Hq : (a / 2 ^ (e - 23) <= inject_Z (2 ^ 24))%Q).
  { apply Qle_shift_div_r; [apply pow2_pos|].
    rewrite <- (pow2_nat 24) by lia. rewrite <- pow2_plus.
    replace (24 + (e - 23)) with (e + 1) by lia. exact Hlt. }
  apply rne_le in Hq. rewrite rne_Z in Hq.
  replace (e + 1) with (24 + (e - 23)) by lia. rewrite pow2_plus.
  apply Qmult_le_compat_r; [|apply Qlt_le_weak, pow2_pos].
  rewrite (pow2_nat 24) by lia. rewrite <- Zle_Qle. exact Hq.
Qed.

Lemma round_pos_lower (a : Q) :
  (0 < a)%Q -> -126 < ilog2 a -> (2 ^ binade a <= round_pos a)%Q.
Proof.
  intros Ha Hn. rewrite round_pos_unfold.
  assert (He : binade a = ilog2 a) by (unfold binade; lia).
  rewrite He. set (e := ilog2 a).
  destruct (ilog2_spec a Ha) as (Hlo & _). fold e in Hlo.
  assert (Hq : (inject_Z (2 ^ 23) <= a / 2 ^ (e - 23))%Q).
  { apply Qle_shift_div_l; [apply pow2_pos|].
    rewrite <- (pow2_nat 23) by lia. rewrite <- pow2_plus.
    replace (23 + (e - 23)) with e by lia. exact Hlo. }
  apply rne_le in Hq. rewrite rne_Z in Hq.
  replace e with (23 + (e - 23)) at 1 by lia. rewrite pow2_plus.
  apply Qmult_le_compat_r; [|apply Qlt_le_weak, pow2_pos].
  rewrite (pow2_nat 23) by lia. rewrite <- Zle_Qle. exact Hq.
Qed.

Lemma round_pos_le (x y : Q) :
  (0 < x)%Q -> (x <= y)%Q -> (round_pos x <= round_pos y)%Q.
Proof.
  intros Hx Hxy.
  assert (Hy : (0 < y)%Q) by lra.
  pose proof (ilog2_le x y Hx Hxy) as Hl.
  destruct (Z.eq_dec (binade x) (binade y)) as [E | E].
  - rewrite !round_pos_unfold, E.
    apply Qmult_le_compat_r; [|apply Qlt_le_weak, pow2_pos].
    rewrite <- Zle_Qle. apply rne_le.
    unfold Qdiv. apply Qmult_le_compat_r; [exact Hxy|].
    apply Qlt_le_weak, Qinv_lt_0_compat, pow2_pos.
  - assert (Hb : binade x + 1 <= binade y) by (unfold binade in *; lia).
    assert (Hn : -126 < ilog2 y) by (unfold binade in *; lia).
    apply Qle_trans with (2 ^ (binade x + 1))%Q; [now apply round_pos_upper|].
    apply Qle_trans with (2 ^ binade y)%Q; [now apply pow2_le|].
    now apply round_pos_lower.
Qed.

Lemma round32_comp (x y : Q) : (x == y)%Q -> round32 x = round32 y.
Proof. intros E. unfold round32. now rewrite (Qred_complete _ _ E). Qed.

Lemma round32_zero (x : Q) : (x == 0)%Q -> round32 x = Fin 0.
Proof. intros E. rewrite (round32_comp _ _ E). reflexivity. Qed.

(** Rounding keeps the order of non-negative numbers, and a number between
    zero and one that rounds to a finite value rounds to a finite value. *)
Lemma round32_nonneg_le (x y b : Q) :
  (0 <= x)%Q -> (x <= y)%Q -> round32 y = Fin b ->
  exists a, round32 x = Fin a /\ (0 <= a)%Q /\ (a <= b)%Q.
Proof.
  intros Hx Hxy Hy.
  assert (Hb : (0 <= b)%Q /\ ((0 < y)%Q ->
            (round_pos (Qred y) < 2 ^ 128)%Q /\ (b == round_pos (Qred y))%Q)).
  { revert Hy. unfold round32.
    destruct (Qcompare_spec (Qred y) 0) as [E | E | E].
    - intros H. injection H as <-. split; [apply Qle_refl|].
      intros H0. rewrite Qred_correct in E. lra.
    - rewrite Qred_correct in E. lra.
    - destruct (Qle_bool (2 ^ 128) (round_pos (Qred y))) eqn:Eo; [discriminate|].
      intros H. injection H as <-.
      split; [rewrite (Qred_correct (round_pos (Qred y))); now apply round_pos_nonneg|].
      intros _. split; [|exact (Qred_correct (round_pos (Qred y)))].
      apply Qnot_le_lt. intros H. apply Qle_bool_iff in H. congruence. }
  destruct Hb as (Hb0 & Hb1).
  destruct (Qlt_le_dec 0 x) as [Hpos | Hzero].
  - destruct (Hb1 ltac:(lra)) as (Hfin & Eb).
    assert (Hle : (round_pos (Qred x) <= round_pos (Qred y))%Q).
    { apply round_pos_le; rewrite !Qred_correct; assumption. }
    unfold round32.
    destruct (Qcompare_spec (Qred x) 0) as [E | E | E];
      try (rewrite Qred_correct in E; lra).
    destruct (Qle_bool (2 ^ 128) (round_pos (Qred x))) eqn:Eo.
    + apply Qle_bool_iff in Eo. lra.
    + eexists. split; [reflexivity|].
      rewrite (Qred_correct (round_pos (Qred x))).
      split; [apply round_pos_nonneg; exact E | lra].
  - exists 0%Q. split; [apply round32_zero; lra|]. split; [apply Qle_refl | exact Hb0].
Qed.

(** Known float32 values: 1/3, 1/10, the overflow threshold, the largest
    finite number, the smallest subnormal, and 2^24 + 1. *)
Example round32_values :
  round32 1 = Fin 1 /\ round32 255 = Fin 255 /\
  round32 (1 # 3) = Fin (11184811 # 33554432) /\
  round32 (1 # 10) = Fin (13421773 # 134217728) /\
  round32 (2 ^ 128) = Inf false /\
  round32 (- (2 ^ 128)) = Inf true /\
  round32 (2 ^ 128 - 2 ^ 103) = Inf false /\
  round32 (2 ^ 128 - 2 ^ 103 - 1) = Fin (2 ^ 128 - 2 ^ 104) /\
  round32 (2 ^ (-150)) = Fin 0 /\
  round32 (3 * 2 ^ (-150)) = Fin (2 ^ (-148)) /\
  round32 (16777217) = Fin 16777216.
Proof. vm_compute. repeat split. Qed.

(** A float32 is a multiple of the smallest subnormal, [2^-149]. *)
Lemma float32_grid (q : Q) :
  is_float32 q -> exists k, (q == inject_Z k * 2 ^ (-149))%Q.
Proof.
  unfold is_float32, round32.
  assert (Hgrid : forall a, exists k, (round_pos a == inject_Z k * 2 ^ (-149))%Q).
  { intros a. rewrite round_pos_unfold.
    exists (rne (a / 2 ^ (binade a - 23)) * 2 ^ (binade a - 23 + 149)).
    rewrite inject_Z_mult, <- Qmult_assoc.
    rewrite <- (pow2_nat (binade a - 23 + 149)) by (unfold binade; lia).
    rewrite <- pow2_plus. replace (binade a - 23 + 149 + -149) with (binade a - 23) by lia.
    reflexivity. }
  assert (Hinj : forall a b : Q, Fin a = Fin b -> a = b) by (intros a b H; congruence).
  cbv zeta. destruct (Qcompare_spec (Qred q) 0) as [E | E | E].
  - intros _. exists 0. rewrite Qred_correct in E. rewrite E. reflexivity.
  - destruct (Hgrid (- Qred q)%Q) as (k & Hk).
    destruct (Qle_bool _ _); [discriminate|]. intros H. apply Hinj in H.
    exists (- k).
    rewrite <- (Qred_correct q) at 1. rewrite <- H, Qred_correct, Hk, inject_Z_opp. ring.
  - destruct (Hgrid (Qred q)) as (k & Hk).
    destruct (Qle_bool _ _); [discriminate|]. intros H. apply Hinj in H.
    exists k.
    rewrite <- (Qred_correct q) at 1. rewrite <- H, Qred_correct. exact Hk.
Qed.

(** The difference of two distinct float32 does not round to zero. *)
Lemma float32_difference_positive (x y d : Q) :
  is_float32 x -> is_float32 y -> (x < y)%Q -> round32 (y - x) = Fin d -> (0 < d)%Q.
Proof.
  intros Hx Hy Hlt Hd.
  destruct (float32_grid x Hx) as (kx & Ex). destruct (float32_grid y Hy) as (ky & Ey).
  pose proof (pow2_pos (-149)) as Hu.
  assert (Hk : kx + 1 <= ky).
  { destruct (Z_lt_le_dec kx ky) as [H | H]; [lia|]. exfalso.
    assert (Hq : (inject_Z ky <= inject_Z kx)%Q) by (rewrite <- Zle_Qle; exact H).
    assert (Hle : (inject_Z ky * 2 ^ (-149) <= inject_Z kx * 2 ^ (-149))%Q)
      by (apply Qmult_le_compat_r; [exact Hq | apply Qlt_le_weak, Hu]).
    rewrite <- Ex, <- Ey in Hle. apply (Qlt_irrefl x). eapply Qlt_le_trans; eassumption. }
  assert (Hstep : (2 ^ (-149) <= y - x)%Q).
  { assert (Hq : (inject_Z kx + 1 <= inject_Z ky)%Q).
    { change 1%Q with (inject_Z 1). rewrite <- inject_Z_plus, <- Zle_Qle. exact Hk. }
    assert (Hle : ((inject_Z kx + 1) * 2 ^ (-149) <= inject_Z ky * 2 ^ (-149))%Q)
      by (apply Qmult_le_compat_r; [exact Hq | apply Qlt_le_weak, Hu]).
    rewrite <- Ey in Hle.
    setoid_replace ((inject_Z kx + 1) * 2 ^ (-149))%Q
      with (inject_Z kx * 2 ^ (-149) + 2 ^ (-149))%Q in Hle by ring.
    rewrite <- Ex in Hle.
    apply (Qplus_le_l _ _ x). setoid_replace (y - x + x)%Q with y by ring.
    rewrite Qplus_comm. exact Hle. }
  destruct (round32_nonneg_le (2 ^ (-149)) (y - x) d) as (a & Ha & _ & Hle);
    [apply Qlt_le_weak, Hu | exact Hstep | exact Hd|].
  assert (Ea : a = (2 ^ (-149))%Q).
  { assert (H : round32 (2 ^ (-149)) = Fin (2 ^ (-149))) by (vm_compute; reflexivity).
    rewrite H in Ha. now injection Ha as <-. }
  subst a. eapply Qlt_le_trans; [exact Hu | exact Hle].
Qed.

(** ** Min-max normalisation *)

Lemma elements_In {A : Type} (a : ndarray A) (y : A) :
  In y (elements a) <->
  exists i j, (i < shape0 a)%nat /\ (j < shape1 a)%nat /\ item a i j = y.
Proof.
  unfold elements. rewrite in_flat_map. split.
  - intros (i & Hi & Hy). apply in_map_iff in Hy. destruct Hy as (j & Hy & Hj).
    apply in_seq in Hi. apply in_seq in Hj. exists i, j. repeat split; auto; lia.
  - intros (i & j & Hi & Hj & Hy). exists i. split; [apply in_seq; lia|].
    apply in_map_iff. exists j. split; [exact Hy | apply in_seq; lia].
Qed.

(** Squeezing keeps the elements. *)
Lemma squeeze_elements_In {A : Type} (a : ndarray A) (y : A) :
  In y (sq_elements (squeeze a)) <->
  exists i j, (i < shape0 a)%nat /\ (j < shape1 a)%nat /\ item a i j = y.
Proof.
  unfold squeeze.
  destruct (Nat.eqb_spec (shape0 a) 1) as [E0 | E0];
    destruct (Nat.eqb_spec (shape1 a) 1) as [E1 | E1]; cbn [sq_elements].
  - rewrite E0, E1. split.
    + intros [<- | []]. exists 0%nat, 0%nat. auto.
    + intros (i & j & Hi & Hj & <-).
      assert (i = 0%nat) by lia. assert (j = 0%nat) by lia. subst. now left.
  - rewrite E0, in_map_iff. split.
    + intros (j & <- & Hj). apply in_seq in Hj. exists 0%nat, j. repeat split; auto; lia.
    + intros (i & j & Hi & Hj & <-). assert (i = 0%nat) by lia. subst.
      exists j. split; [reflexivity | apply in_seq; lia].
  - rewrite E1, in_map_iff. split.
    + intros (i & <- & Hi). apply in_seq in Hi. exists i, 0%nat. repeat split; auto; lia.
    + intros (i & j & Hi & Hj & <-). assert (j = 0%nat) by lia. subst.
      exists i. split; [reflexivity | apply in_seq; lia].
  - apply elements_In.
Qed.

Lemma fold_f32_min_finite (xs : list float32) : forall lo0,
  Forall (fun y => exists q, y = Fin q) xs ->
  exists lo,
    fold_left f32_min xs (Fin lo0) = Fin lo /\
    In (Fin lo) (Fin lo0 :: xs) /\ (lo <= lo0)%Q /\
    forall q, In (Fin q) xs -> (lo <= q)%Q.
Proof.
  induction xs as [|x xs IH]; intros lo0 Hall; cbn [fold_left].
  - exists lo0. split; [reflexivity|]. split; [now left|]. split; [apply Qle_refl|].
    intros q [].
  - inversion Hall as [|? ? (q1 & ->) Hall']; subst.
    cbn [f32_min f32_leb].
    destruct (Qle_bool lo0 q1) eqn:E.
    + apply Qle_bool_iff in E.
      destruct (IH lo0 Hall') as (lo & Hf & Hin & Hle & Hmin).
      exists lo. split; [exact Hf|]. split; [destruct Hin; [now left | right; now right]|].
      split; [exact Hle|]. intros q [Hq | Hq]; [|now apply Hmin].
      injection Hq as <-. eapply Qle_trans; eassumption.
    + assert (E' : (q1 <= lo0)%Q).
      { apply Qlt_le_weak, Qnot_le_lt. intros H. apply Qle_bool_iff in H. congruence. }
      destruct (IH q1 Hall') as (lo & Hf & Hin & Hle & Hmin).
      exists lo. split; [exact Hf|]. split; [right; exact Hin|].
      split; [eapply Qle_trans; eassumption|]. intros q [Hq | Hq]; [|now apply Hmin].
      injection Hq as <-. exact Hle.
Qed.

Lemma fold_f32_max_finite (xs : list float32) : forall hi0,
  Forall (fun y => exists q, y = Fin q) xs ->
  exists hi,
    fold_left f32_max xs (Fin hi0) = Fin hi /\
    In (Fin hi) (Fin hi0 :: xs) /\ (hi0 <= hi)%Q /\
    forall q, In (Fin q) xs -> (q <= hi)%Q.
Proof.
  induction xs as [|x xs IH]; intros hi0 Hall; cbn [fold_left].
  - exists hi0. split; [reflexivity|]. split; [now left|]. split; [apply Qle_refl|].
    intros q [].
  - inversion Hall as [|? ? (q1 & ->) Hall']; subst.
    cbn [f32_max f32_leb].
    destruct (Qle_bool hi0 q1) eqn:E.
    + apply Qle_bool_iff in E.
      destruct (IH q1 Hall') as (hi & Hf & Hin & Hle & Hmax).
      exists hi. split; [exact Hf|]. split; [right; exact Hin|].
      split; [eapply Qle_trans; eassumption|]. intros q [Hq | Hq]; [|now apply Hmax].
      injection Hq as <-. exact Hle.
    + assert (E' : (q1 <= hi0)%Q).
      { apply Qlt_le_weak, Qnot_le_lt. intros H. apply Qle_bool_iff in H. congruence. }
      destruct (IH hi0 Hall') as (hi & Hf & Hin & Hle & Hmax).
      exists hi. split; [exact Hf|]. split; [destruct Hin; [now left | right; now right]|].
      split; [exact Hle|]. intros q [Hq | Hq]; [|now apply Hmax].
      injection Hq as <-. eapply Qle_trans; eassumption.
Qed.

Lemma finite_elements (depth : ndarray float32) :
  finite_depths depth ->
  Forall (fun y => exists q, y = Fin q) (sq_elements (squeeze depth)).
Proof.
  intros Hfin. apply Forall_forall. intros y Hy.
  apply squeeze_elements_In in Hy. destruct Hy as (i & j & Hi & Hj & <-).
  destruct (Hfin i j Hi Hj) as (q & Hq & _). now exists q.
Qed.

(** The minimum of finite depths is one of them, and none is below it. *)
Lemma np_min_finite (depth : ndarray float32) (m : float32) :
  finite_depths depth ->
  np_min (squeeze depth) = Some m ->
  exists lo, m = Fin lo /\ is_float32 lo /\
    (exists i j, (i < shape0 depth)%nat /\ (j < shape1 depth)%nat /\
                 item depth i j = Fin lo) /\
    forall i j q, (i < shape0 depth)%nat -> (j < shape1 depth)%nat ->
      item depth i j = Fin q -> (lo <= q)%Q.
Proof.
  intros Hfin. pose proof (finite_elements depth Hfin) as Hall.
  pose proof (squeeze_elements_In depth) as Hin.
  unfold np_min. destruct (sq_elements (squeeze depth)) as [|x xs]; [discriminate|].
  intros H. injection H as <-.
  inversion Hall as [|? ? (q0 & ->) Hall']; subst.
  destruct (fold_f32_min_finite xs q0 Hall') as (lo & Hf & Hmem & Hle & Hmin).
  exists lo. split; [exact Hf|].
  assert (Hat : exists i j, (i < shape0 depth)%nat /\ (j < shape1 depth)%nat /\
                            item depth i j = Fin lo) by (apply Hin; exact Hmem).
  split; [|split; [exact Hat|]].
  - destruct Hat as (i & j & Hi & Hj & E). destruct (Hfin i j Hi Hj) as (q & Hq & Hf32).
    rewrite E in Hq. now injection Hq as ->.
  - intros i j q Hi Hj E.
    assert (Hq : In (Fin q) (Fin q0 :: xs)) by (apply Hin; now exists i, j).
    destruct Hq as [Hq | Hq]; [injection Hq as <-; exact Hle | now apply Hmin].
Qed.

Lemma np_max_finite (depth : ndarray float32) (m : float32) :
  finite_depths depth ->
  np_max (squeeze depth) = Some m ->
  exists hi, m = Fin hi /\ is_float32 hi /\
    (exists i j, (i < shape0 depth)%nat /\ (j < shape1 depth)%nat /\
                 item depth i j = Fin hi) /\
    forall i j q, (i < shape0 depth)%nat -> (j < shape1 depth)%nat ->
      item depth i j = Fin q -> (q <= hi)%Q.
Proof.
  intros Hfin. pose proof (finite_elements depth Hfin) as Hall.
  pose proof (squeeze_elements_In depth) as Hin.
  unfold np_max. destruct (sq_elements (squeeze depth)) as [|x xs]; [discriminate|].
  intros H. injection H as <-.
  inversion Hall as [|? ? (q0 & ->) Hall']; subst.
  destruct (fold_f32_max_finite xs q0 Hall') as (hi & Hf & Hmem & Hle & Hmax).
  exists hi. split; [exact Hf|].
  assert (Hat : exists i j, (i < shape0 depth)%nat /\ (j < shape1 depth)%nat /\
                            item depth i j = Fin hi) by (apply Hin; exact Hmem).
  split; [|split; [exact Hat|]].
  - destruct Hat as (i & j & Hi & Hj & E). destruct (Hfin i j Hi Hj) as (q & Hq & Hf32).
    rewrite E in Hq. now injection Hq as ->.
  - intros i j q Hi Hj E.
    assert (Hq : In (Fin q) (Fin q0 :: xs)) by (apply Hin; now exists i, j).
    destruct Hq as [Hq | Hq]; [injection Hq as <-; exact Hle | now apply Hmax].
Qed.

Lemma int_nonneg_floor (q : Q) : (0 <= q)%Q -> int q = Qfloor q.
Proof.
  destruct q as [n d]. unfold int, Qfloor, Qle. cbn [Qnum Qden].
  intros H. apply Z.quot_div_nonneg; lia.
Qed.

(** The result of [visualize_depth] is the squeeze of an image of the shape
    of the depth map, each element computed from the depth at its place. *)
Lemma visualize_depth_squeezed (depth : ndarray float32) (lo hi : float32) :
  np_min (squeeze depth) = Some lo ->
  np_max (squeeze depth) = Some hi ->
  exists g,
    visualize_depth depth = inr (squeeze g) /\ same_shape g depth /\
    forall i j, (i < shape0 depth)%nat -> (j < shape1 depth)%nat ->
      exists i' j',
        item g i j =
        astype_uint8 i' j'
          (f32_mul (f32_div (f32_sub (item depth i j) lo) (f32_sub hi lo)) (Fin 255)).
Proof.
  intros Hmin Hmax. unfold visualize_depth. rewrite Hmin, Hmax. cbv zeta.
  set (pix := fun (i j : nat) (x : float32) =>
                astype_uint8 i j (f32_mul (f32_div (f32_sub x lo) (f32_sub hi lo)) (Fin 255))).
  unfold squeeze at 1.
  destruct (Nat.eqb_spec (shape0 depth) 1) as [E0 | E0];
    destruct (Nat.eqb_spec (shape1 depth) 1) as [E1 | E1]; cbn [sq_mapi].
  - exists (mk_ndarray 1 1 (fun _ _ => pix 0%nat 0%nat (item depth 0 0))).
    split; [reflexivity|]. split; [split; cbn; congruence|].
    intros i j Hi Hj. assert (i = 0%nat) by lia. assert (j = 0%nat) by lia. subst.
    exists 0%nat, 0%nat. reflexivity.
  - exists (mk_ndarray 1 (shape1 depth) (fun _ j => pix j 0%nat (item depth 0 j))).
    split; [|split; [split; cbn; congruence|]].
    + unfold squeeze. cbn [shape0 shape1 item Nat.eqb].
      destruct (Nat.eqb_spec (shape1 depth) 1); [contradiction | reflexivity].
    + intros i j Hi Hj. assert (i = 0%nat) by lia. subst.
      exists j, 0%nat. reflexivity.
  - exists (mk_ndarray (shape0 depth) 1 (fun i _ => pix i 0%nat (item depth i 0))).
    split; [|split; [split; cbn; congruence|]].
    + unfold squeeze. cbn [shape0 shape1 item Nat.eqb].
      destruct (Nat.eqb_spec (shape0 depth) 1); [contradiction | reflexivity].
    + intros i j Hi Hj. assert (j = 0%nat) by lia. subst.
      exists i, 0%nat. reflexivity.
  - exists (mk_ndarray (shape0 depth) (shape1 depth) (fun i j => pix i j (item depth i j))).
    split; [|split; [split; reflexivity|]].
    + unfold squeeze. cbn [shape0 shape1 item].
      destruct (Nat.eqb_spec (shape0 depth) 1); [contradiction|].
      destruct (Nat.eqb_spec (shape1 depth) 1); [contradiction | reflexivity].
    + intros i j Hi Hj. exists i, j. reflexivity.
Qed.

Lemma round32_one : round32 1 = Fin 1.
Proof. reflexivity. Qed.

Lemma round32_255 : round32 255 = Fin 255.
Proof. vm_compute. reflexivity. Qed.

(** The three rounded operations on a depth between the minimum and the
    maximum, when the range is finite and positive. *)
Lemma rescale_chain (v lo hi d : Q) :
  (lo <= v)%Q -> (v <= hi)%Q -> round32 (hi - lo) = Fin d -> (0 < d)%Q ->
  exists a q p,
    round32 (v - lo) = Fin a /\ round32 (a / d) = Fin q /\
    round32 (q * 255) = Fin p /\
    (0 <= a /\ a <= d)%Q /\ (0 <= q /\ q <= 1)%Q /\ (0 <= p /\ p <= 255)%Q.
Proof.
  intros Hlo Hhi Hd Hpos.
  destruct (round32_nonneg_le (v - lo) (hi - lo) d) as (a & Ha & Ha0 & Had);
    [lra | lra | exact Hd|].
  destruct (round32_nonneg_le (a / d) 1 1) as (q & Hq & Hq0 & Hq1).
  { apply Qle_shift_div_l; [exact Hpos | lra]. }
  { apply Qle_shift_div_r; [exact Hpos | lra]. }
  { exact round32_one. }
  destruct (round32_nonneg_le (q * 255) 255 255) as (p & Hp & Hp0 & Hp1);
    [lra | lra | exact round32_255|].
  exists a, q, p. auto 10.
Qed.

Lemma astype_uint8_in_range (i j : nat) (p : Q) :
  (0 <= p)%Q -> (p <= 255)%Q ->
  astype_uint8 i j (Fin p) = int p /\ 0 <= int p <= 255.
Proof.
  intros H0 H1. rewrite (int_nonneg_floor _ H0).
  assert (Hfl : 0 <= Qfloor p <= 255).
  { split.
    - change 0 with (Qfloor 0). now apply Qfloor_resp_le.
    - change 255 with (Qfloor 255). now apply Qfloor_resp_le. }
  split; [|exact Hfl]. cbn [astype_uint8]. rewrite (int_nonneg_floor _ H0).
  destruct (Z.leb_spec 0 (Qfloor p)); [|lia].
  destruct (Z.leb_spec (Qfloor p) 255); [reflexivity | lia].
Qed.

(** The element of the image at a finite depth, when the range is finite. *)
Lemma visualize_depth_pixels (depth : ndarray float32) (lo hi d : Q) :
  finite_depths depth ->
  np_min (squeeze depth) = Some (Fin lo) ->
  np_max (squeeze depth) = Some (Fin hi) ->
  (lo < hi)%Q ->
  round32 (hi - lo) = Fin d ->
  (0 < d)%Q /\
  exists g,
    visualize_depth depth = inr (squeeze g) /\ same_shape g depth /\
    forall i j, (i < shape0 depth)%nat -> (j < shape1 depth)%nat ->
      exists v a q p,
        item depth i j = Fin v /\ (lo <= v)%Q /\ (v <= hi)%Q /\
        round32 (v - lo) = Fin a /\ round32 (a / d) = Fin q /\
        round32 (q * 255) = Fin p /\
        (0 <= p)%Q /\ (p <= 255)%Q /\ item g i j = int p.
Proof.
  intros Hfin Hmin Hmax Hlt Hd.
  destruct (np_min_finite depth _ Hfin Hmin) as (lo' & Elo & Flo & _ & Hge).
  injection Elo as <-.
  destruct (np_max_finite depth _ Hfin Hmax) as (hi' & Ehi & Fhi & _ & Hle).
  injection Ehi as <-.
  assert (Hpos : (0 < d)%Q) by exact (float32_difference_positive lo hi d Flo Fhi Hlt Hd).
  split; [exact Hpos|].
  destruct (visualize_depth_squeezed depth _ _ Hmin Hmax) as (g & Hg & Hsh & Hpix).
  exists g. split; [exact Hg|]. split; [exact Hsh|].
  intros i j Hi Hj. destruct (Hfin i j Hi Hj) as (v & Ev & _).
  pose proof (Hge i j v Hi Hj Ev) as Hv0. pose proof (Hle i j v Hi Hj Ev) as Hv1.
  destruct (rescale_chain v lo hi d Hv0 Hv1 Hd Hpos)
    as (a & q & p & Ha & Hq & Hp & _ & _ & Hp0 & Hp1).
  exists v, a, q, p. do 6 (split; [assumption|]). split; [exact Hp0|]. split; [exact Hp1|].
  destruct (Hpix i j Hi Hj) as (i' & j' & ->). rewrite Ev.
  cbn [f32_sub]. rewrite Hd, Ha. cbn [f32_div].
  assert (Ez : Qeq_bool d 0 = false).
  { destruct (Qeq_bool d 0) eqn:E; [|reflexivity]. apply Qeq_bool_iff in E. lra. }
  rewrite Ez, Hq. cbn [f32_mul]. rewrite Hp.
  apply astype_uint8_in_range; assumption.
Qed.

(** C9, as amended: for a depth map of finite float32 values whose maximum
    is above its minimum and whose range [max - min] is finite in float32,
    [visualize_depth] returns the squeeze of an image of the shape of the
    depth map; its element at a depth [v] is the float32 product by 255 of
    the float32 quotient of the float32 differences [v - min] and
    [max - min], cut to an integer; it lies between 0 and 255, is 0 where
    the depth is the minimum and 255 where it is the maximum, and both
    occur. *)
Theorem visualize_depth_rescales_to_uint8 (depth : ndarray float32) (lo hi d : Q) :
  finite_depths depth ->
  np_min (squeeze depth) = Some (Fin lo) ->
  np_max (squeeze depth) = Some (Fin hi) ->
  (lo < hi)%Q ->
  round32 (hi - lo) = Fin d ->
  exists g,
    visualize_depth depth = inr (squeeze g) /\ same_shape g depth /\
    (forall i j, (i < shape0 depth)%nat -> (j < shape1 depth)%nat ->
       exists v a q p,
         item depth i j = Fin v /\
         round32 (v - lo) = Fin a /\ round32 (a / d) = Fin q /\
         round32 (q * 255) = Fin p /\
         item g i j = int p /\ 0 <= item g i j <= 255 /\
         ((v == lo)%Q -> item g i j = 0) /\
         ((v == hi)%Q -> item g i j = 255)) /\
    (exists i j, (i < shape0 depth)%nat /\ (j < shape1 depth)%nat /\ item g i j = 0) /\
    (exists i j, (i < shape0 depth)%nat /\ (j < shape1 depth)%nat /\ item g i j = 255).
Proof.
  intros Hfin Hmin Hmax Hlt Hd.
  destruct (visualize_depth_pixels depth lo hi d Hfin Hmin Hmax Hlt Hd)
    as (Hpos & g & Hg & Hsh & Hpix).
  assert (Hends : forall i j, (i < shape0 depth)%nat -> (j < shape1 depth)%nat ->
    forall v, item depth i j = Fin v ->
      ((v == lo)%Q -> item g i j = 0) /\ ((v == hi)%Q -> item g i j = 255)).
  { intros i j Hi Hj v Ev.
    destruct (Hpix i j Hi Hj) as (v' & a & q & p & Ev' & _ & _ & Ha & Hq & Hp & _ & _ & ->).
    rewrite Ev in Ev'. injection Ev' as <-. split; intros E.
    - assert (Ea : a = 0%Q).
      { rewrite (round32_zero (v - lo)) in Ha by (rewrite E; ring). now injection Ha. }
      subst a.
      assert (Eq : q = 0%Q).
      { rewrite (round32_zero (0 / d)) in Hq by (unfold Qdiv; ring). now injection Hq. }
      subst q.
      assert (Ep : p = 0%Q) by (rewrite (round32_zero (0 * 255)) in Hp by ring; now injection Hp).
      subst p. reflexivity.
    - assert (Ea : a = d).
      { rewrite (round32_comp (v - lo) (hi - lo)) in Ha by (rewrite E; reflexivity).
        rewrite Hd in Ha. now injection Ha. }
      subst a.
      assert (Eq : q = 1%Q).
      { rewrite (round32_comp (d / d) 1) in Hq by (field; lra).
        rewrite round32_one in Hq. now injection Hq. }
      subst q.
      assert (Ep : p = 255%Q).
      { rewrite (round32_comp (1 * 255) 255) in Hp by ring.
        rewrite round32_255 in Hp. now injection Hp. }
      subst p. reflexivity. }
  exists g. split; [exact Hg|]. split; [exact Hsh|]. split; [|split].
  - intros i j Hi Hj.
    destruct (Hpix i j Hi Hj) as (v & a & q & p & Ev & _ & _ & Ha & Hq & Hp & Hp0 & Hp1 & Eg).
    exists v, a, q, p. do 5 (split; [assumption|]).
    split; [rewrite Eg; apply (astype_uint8_in_range 0 0 p Hp0 Hp1)|].
    exact (Hends i j Hi Hj v Ev).
  - destruct (np_min_finite depth _ Hfin Hmin) as (lo' & Elo & _ & (i & j & Hi & Hj & E) & _).
    injection Elo as <-. exists i, j. split; [exact Hi|]. split; [exact Hj|].
    apply (proj1 (Hends i j Hi Hj lo E)). reflexivity.
  - destruct (np_max_finite depth _ Hfin Hmax) as (hi' & Ehi & _ & (i & j & Hi & Hj & E) & _).
    injection Ehi as <-. exists i, j. split; [exact Hi|]. split; [exact Hj|].
    apply (proj2 (Hends i j Hi Hj hi E)). reflexivity.
Qed.

(** On a constant depth map the divisor is zero at every element and every
    quotient is NaN: the image holds whatever the cast of NaN to uint8
    stores. *)
Lemma visualize_depth_constant_is_invalid (depth : ndarray float32) (lo hi : Q) :
  finite_depths depth ->
  np_min (squeeze depth) = Some (Fin lo) ->
  np_max (squeeze depth) = Some (Fin hi) ->
  (lo == hi)%Q ->
  exists g,
    visualize_depth depth = inr (squeeze g) /\
    forall i j, (i < shape0 depth)%nat -> (j < shape1 depth)%nat ->
      exists i' j', item g i j = uint8_of_invalid i' j'.
Proof.
  intros Hfin Hmin Hmax E.
  destruct (np_min_finite depth _ Hfin Hmin) as (lo' & Elo & _ & _ & Hge).
  injection Elo as <-.
  destruct (np_max_finite depth _ Hfin Hmax) as (hi' & Ehi & _ & _ & Hle).
  injection Ehi as <-.
  destruct (visualize_depth_squeezed depth _ _ Hmin Hmax) as (g & Hg & _ & Hpix).
  exists g. split; [exact Hg|]. intros i j Hi Hj.
  destruct (Hpix i j Hi Hj) as (i' & j' & ->). exists i', j'.
  destruct (Hfin i j Hi Hj) as (v & Ev & _). rewrite Ev.
  pose proof (Hge i j v Hi Hj Ev). pose proof (Hle i j v Hi Hj Ev).
  cbn [f32_sub]. rewrite (round32_zero (hi - lo)), (round32_zero (v - lo)) by lra.
  reflexivity.
Qed.

(** ** The size computed by the resize stage *)

Lemma np_round_near (x : Q) :
  (inject_Z (np_round x) - (1 # 2) <= x /\ x <= inject_Z (np_round x) + (1 # 2))%Q.
Proof.
  unfold np_round.
  pose proof (Qfloor_le x) as Hlo. pose proof (Qlt_floor x) as Hhi.
  rewrite inject_Z_plus in Hhi. change (inject_Z 1) with 1%Q in Hhi.
  destruct (Qcompare_spec (x - inject_Z (Qfloor x)) (1 # 2)) as [E | E | E].
  - destruct (Z.even (Qfloor x)); [|rewrite inject_Z_plus; change (inject_Z 1) with 1%Q];
      split; lra.
  - split; lra.
  - rewrite inject_Z_plus. change (inject_Z 1) with 1%Q. split; lra.
Qed.

Lemma np_round_ge (x : Q) (z : Z) : (inject_Z z <= x)%Q -> z <= np_round x.
Proof.
  intros H. apply Qfloor_resp_le in H. rewrite Qfloor_Z in H.
  unfold np_round. destruct (_ ?= _)%Q; [destruct (Z.even _)| |]; lia.
Qed.

Lemma np_round_integer (x : Q) (z : Z) : (x == inject_Z z)%Q -> np_round x = z.
Proof.
  intros E. destruct (np_round_near x) as (Hlo & Hhi).
  revert Hlo Hhi. generalize (np_round x). intros k Hlo Hhi.
  assert (H1 : (inject_Z k - (1 # 2) <= inject_Z z)%Q) by lra.
  assert (H2 : (inject_Z z <= inject_Z k + (1 # 2))%Q) by lra.
  revert H1 H2. unfold Qle, Qminus, Qplus, Qopp, inject_Z. cbn. lia.
Qed.

Lemma constrain_spec (x : Q) :
  (532 <= x)%Q ->
  let y := constrain_to_multiple_of the_resize x 532 in
  (14 | y) /\ 532 <= y /\
  (inject_Z y - 7 <= x /\ x <= inject_Z y + 7)%Q /\
  ((x == 532)%Q -> y = 532).
Proof.
  intros Hx. unfold constrain_to_multiple_of, the_resize.
  cbn [ensure_multiple_of]. change (inject_Z 14) with 14%Q.
  set (q := (x / 14)%Q).
  assert (Hq : (x == 14 * q)%Q) by (unfold q; field).
  destruct (np_round_near q) as (Hlo & Hhi).
  assert (Hk : 38 <= np_round q) by (apply np_round_ge; change (inject_Z 38) with 38%Q; lra).
  destruct (np_round q * 14 <? 532) eqn:E; [apply Z.ltb_lt in E; lia|].
  cbv zeta. split; [apply Z.divide_factor_r|]. split; [lia|].
  rewrite inject_Z_mult. change (inject_Z 14) with 14%Q. split; [split; lra|].
  intros E1. rewrite (np_round_integer q 38); [reflexivity|].
  change (inject_Z 38) with 38%Q. lra.
Qed.

Lemma scale_spec (a b : Q) :
  (0 < a)%Q -> (0 < b)%Q ->
  let scale := qmax (532 / a) (532 / b) in
  (532 <= scale * a /\ 532 <= scale * b)%Q /\
  ((a <= b)%Q -> (scale * a == 532)%Q) /\
  ((b <= a)%Q -> (scale * b == 532)%Q).
Proof.
  intros Ha Hb.
  assert (Ea : (532 / a * a == 532)%Q) by (field; lra).
  assert (Eb : (532 / b * b == 532)%Q) by (field; lra).
  assert (Pa : (0 <= 532 / a)%Q) by (apply Qle_shift_div_l; lra).
  assert (Pb : (0 <= 532 / b)%Q) by (apply Qle_shift_div_l; lra).
  unfold qmax. destruct (Qle_bool (532 / a) (532 / b)) eqn:E; cbv zeta.
  - apply Qle_bool_iff in E.
    assert (H1 : (532 / a * a <= 532 / b * a)%Q)
      by (apply Qmult_le_compat_r; [exact E | lra]).
    split; [split; lra|]. split; [|intros _; exact Eb].
    intros Hab.
    assert (H2 : (532 / b * a <= 532 / b * b)%Q)
      by (rewrite !(Qmult_comm (532 / b)); apply Qmult_le_compat_r; assumption).
    apply Qle_antisym; lra.
  - assert (E' : (532 / b <= 532 / a)%Q).
    { apply Qlt_le_weak, Qnot_le_lt. intros H. apply Qle_bool_iff in H. congruence. }
    assert (H1 : (532 / b * b <= 532 / a * b)%Q)
      by (apply Qmult_le_compat_r; [exact E' | lra]).
    split; [split; lra|]. split; [intros _; exact Ea|].
    intros Hba.
    assert (H2 : (532 / a * b <= 532 / a * a)%Q)
      by (rewrite !(Qmult_comm (532 / a)); apply Qmult_le_compat_r; assumption).
    apply Qle_antisym; lra.
Qed.

Lemma snapped_aspect (a b y : Z) (x s : Q) :
  0 < a ->
  (x == s * inject_Z b)%Q ->
  (s * inject_Z a == 532)%Q ->
  (inject_Z y - 7 <= x /\ x <= inject_Z y + 7)%Q ->
  Z.abs (y * a - 532 * b) <= 7 * a.
Proof.
  intros Ha Hx Hs (Hlo & Hhi).
  assert (Hpos : (inject_Z 0 <= inject_Z a)%Q) by (rewrite <- Zle_Qle; lia).
  change (inject_Z 0) with 0%Q in Hpos.
  assert (Hxa : (x * inject_Z a == 532 * inject_Z b)%Q).
  { rewrite Hx, <- Hs. ring. }
  assert (H1 : ((inject_Z y - 7) * inject_Z a <= 532 * inject_Z b)%Q).
  { rewrite <- Hxa. now apply Qmult_le_compat_r. }
  assert (H2 : (532 * inject_Z b <= (inject_Z y + 7) * inject_Z a)%Q).
  { rewrite <- Hxa. now apply Qmult_le_compat_r. }
  revert H1 H2. unfold Qle, Qminus, Qplus, Qopp, Qmult, inject_Z.
  cbn [Qnum Qden Pos.mul]. lia.
Qed.

(** The size the resize stage computes for a positive width and height:
    both are multiples of 14 and at least 532, the smaller of them is
    exactly 532, and the two cross products that the aspect ratio equates
    differ by at most 7 times the shorter side. *)
Lemma get_size_spec (w h : nat) :
  (0 < w)%nat -> (0 < h)%nat ->
  let '(w', h') := get_size the_resize w h in
  (14 | w') /\ (14 | h') /\ 532 <= w' /\ 532 <= h' /\ Z.min w' h' = 532 /\
  Z.abs (w' * Z.of_nat h - h' * Z.of_nat w) <= 7 * Z.of_nat (Nat.min w h).
Proof.
  intros Hw Hh. unfold get_size. cbn [the_resize rs_width rs_height].
  change (inject_Z 532) with 532%Q.
  set (Hq := inject_Z (Z.of_nat h)). set (Wq := inject_Z (Z.of_nat w)).
  assert (HHq : (0 < Hq)%Q) by (unfold Hq; change 0%Q with (inject_Z 0); rewrite <- Zlt_Qlt; lia).
  assert (HWq : (0 < Wq)%Q) by (unfold Wq; change 0%Q with (inject_Z 0); rewrite <- Zlt_Qlt; lia).
  destruct (scale_spec Hq Wq HHq HWq) as ((Sh & Sw) & Ehw & Ewh).
  cbv zeta in Sh, Sw, Ehw, Ewh. cbv zeta.
  set (scale := qmax (532 / Hq) (532 / Wq)) in *.
  destruct (constrain_spec (scale * Hq)%Q Sh) as (Dh & Bh & Nh & Zh).
  destruct (constrain_spec (scale * Wq)%Q Sw) as (Dw & Bw & Nw & Zw).
  cbv zeta in Dh, Bh, Nh, Zh, Dw, Bw, Nw, Zw.
  set (h' := constrain_to_multiple_of the_resize (scale * Hq) 532) in *.
  set (w' := constrain_to_multiple_of the_resize (scale * Wq) 532) in *.
  do 4 (split; [assumption|]).
  destruct (le_ge_dec h w) as [Hle | Hge].
  - assert (E : (scale * Hq == 532)%Q).
    { apply Ehw. unfold Hq, Wq. rewrite <- Zle_Qle. lia. }
    rewrite (Zh E), Nat.min_r by exact Hle. split; [lia|].
    apply (snapped_aspect (Z.of_nat h) (Z.of_nat w) w' (scale * Wq)%Q scale);
      [lia | reflexivity | exact E | exact Nw].
  - assert (E : (scale * Wq == 532)%Q).
    { apply Ewh. unfold Hq, Wq. rewrite <- Zle_Qle. lia. }
    rewrite (Zw E), Nat.min_l by exact Hge. split; [lia|].
    pose proof (snapped_aspect (Z.of_nat w) (Z.of_nat h) h' (scale * Hq)%Q scale
                  ltac:(lia) (Qeq_refl _) E Nh) as Hs.
    lia.
Qed.

(** C3, as amended: for an image of positive height and width the resize
    stage of [get_transform] returns an image, the interpolation of its
    input, whose width and height are both multiples of 14 and at least
    532, the smaller of them being exactly 532; the aspect ratio is kept up
    to the snap, the two cross products differing by at most 7 times the
    shorter side of the input.  The stages after it keep that shape, and
    normalise each pixel of the resized image. *)
Theorem resize_size_multiple_of_14 (img : image) :
  (0 < shape0 img)%nat -> (0 < shape1 img)%nat ->
  exists resized out,
    Resize_call the_resize img = inr resized /\
    get_transform img = inr out /\ same_shape out resized /\
    (let w := Z.of_nat (shape1 img) in
     let h := Z.of_nat (shape0 img) in
     let w' := Z.of_nat (shape1 resized) in
     let h' := Z.of_nat (shape0 resized) in
     (14 | w') /\ (14 | h') /\ 532 <= w' /\ 532 <= h' /\ Z.min w' h' = 532 /\
     Z.abs (w' * h - h' * w) <= 7 * Z.min w h) /\
    (forall i j,
       item resized i j = lanczos4 _ img (shape0 resized) (shape1 resized) i j /\
       item out i j =
       let '(r, g, b) := item resized i j in
       ((r - (485 # 1000)) / (229 # 1000), (g - (456 # 1000)) / (224 # 1000),
        (b - (406 # 1000)) / (225 # 1000))%Q).
Proof.
  intros H0 H1. pose proof (get_size_spec (shape1 img) (shape0 img) H1 H0) as Hsz.
  unfold get_transform, Resize_call, cv2_resize.
  destruct (get_size the_resize (shape1 img) (shape0 img)) as [w' h'].
  destruct Hsz as (Dw & Dh & Bw & Bh & Hmin & Hasp).
  destruct (Nat.eqb_spec (shape0 img) 0) as [E|_]; [lia|].
  destruct (Nat.eqb_spec (shape1 img) 0) as [E|_]; [lia|].
  destruct (Z.leb_spec w' 0) as [E|_]; [lia|].
  destruct (Z.leb_spec h' 0) as [E|_]; [lia|].
  cbn [orb bind].
  eexists. eexists. split; [reflexivity|]. split; [reflexivity|].
  split; [split; reflexivity|].
  cbn [shape0 shape1 item PrepareForNet NormalizeImage amap].
  rewrite !Z2Nat.id by lia.
  split.
  - do 5 (split; [assumption|]).
    rewrite <- Nat2Z.inj_min. exact Hasp.
  - intros i j. split; [reflexivity|].
    unfold PrepareForNet, NormalizeImage, amap. cbn [item].
    destruct (lanczos4 _ img (Z.to_nat h') (Z.to_nat w') i j) as [[r g] b]. reflexivity.
Qed.

(** ** Further facts on the frame loop *)

Lemma skipn_nil_Z (m : nat) : skipn m (@nil Z) = [].
Proof. destruct m; reflexivity. Qed.

Lemma Forall_firstn_of {A : Type} (P : A -> Prop) (m : nat) (l : list A) :
  Forall P l -> Forall P (firstn m l).
Proof.
  intros H. revert m. induction H as [|x l Hx _ IH]; intros [|m]; cbn [firstn];
    constructor; auto.
Qed.

Lemma is_quit_no_key : is_quit (-1) = false.
Proof. reflexivity. Qed.

(** [m] iterations without a quit key on frames that are read and processed
    without error. *)
Lemma frame_loop_steps (m : nat) : forall (n : nat) (st : Proc) (v : Video),
  cap_source (p_cap st) = Some v ->
  cap_released (p_cap st) = false ->
  Forall (fun x => is_quit x = false) (firstn m (keys (p_world st))) ->
  (forall j, (j < m)%nat ->
     exists f g, stream v (cap_pos (p_cap st) + j) = Some f /\
                 process_frame f = inr g) ->
  exists st1,
    frame_loop (m + n) st = frame_loop n st1 /\
    cap_source (p_cap st1) = Some v /\
    cap_released (p_cap st1) = false /\
    cap_pos (p_cap st1) = (cap_pos (p_cap st) + m)%nat /\
    cap_reads (p_cap st1) = (cap_reads (p_cap st) + m)%nat /\
    List.length (out_frames (p_out st1)) = (List.length (out_frames (p_out st)) + m)%nat /\
    keys (p_world st1) = skipn m (keys (p_world st)).
Proof.
  induction m as [|m IH]; intros n st v Hsrc Hrel Hkeys Hfr.
  - exists st. rewrite !Nat.add_0_r. cbn [plus skipn]. auto 10.
  - destruct (Hfr 0%nat) as (f & g & Hf & Hg); [lia|].
    rewrite Nat.add_0_r in Hf.
    cbn [plus frame_loop]. unfold read. rewrite Hsrc, Hrel, Hf, Hg.
    unfold waitKey, imshow.
    assert (Hkeys' : keys (if existsb (String.eqb "Depth Anywhere") (windows (p_world st))
                           then p_world st
                           else set_windows (windows (p_world st) ++ ["Depth Anywhere"%string])
                                  (p_world st)) = keys (p_world st))
      by (destruct (existsb _ _); reflexivity).
    rewrite Hkeys'.
    assert (Hrest : forall j, (j < m)%nat ->
              exists f' g', stream v (S (cap_pos (p_cap st)) + j) = Some f' /\
                            process_frame f' = inr g').
    { intros j Hj. destruct (Hfr (S j)) as (f' & g' & Hf' & Hg'); [lia|].
      exists f', g'. rewrite <- Hf'. split; [f_equal; lia | exact Hg']. }
    destruct (keys (p_world st)) as [|k ks] eqn:Ek.
    + rewrite is_quit_no_key.
      match goal with |- exists st1, frame_loop (m + n) ?s = _ /\ _ =>
        destruct (IH n s v) as (st1 & Hloop & Hs & Hr & Hps & Hrd & Hlen & Hks) end;
        proj_simpl; auto.
      * rewrite Hkeys'. destruct m; constructor.
      * exists st1. split; [exact Hloop|].
        revert Hps Hrd Hlen Hks. unfold write. proj_simpl. rewrite length_app.
        rewrite Hkeys', skipn_nil_Z. cbn [List.length skipn]. intros.
        repeat split; auto; lia.
    + cbn [firstn] in Hkeys. inversion Hkeys as [|? ? Hk Hks']; subst.
      rewrite Hk.
      match goal with |- exists st1, frame_loop (m + n) ?s = _ /\ _ =>
        destruct (IH n s v) as (st1 & Hloop & Hs & Hr & Hps & Hrd & Hlen & Hks) end;
        proj_simpl; auto.
      exists st1. split; [exact Hloop|].
      revert Hps Hrd Hlen Hks. unfold write. proj_simpl. rewrite length_app.
      cbn [List.length skipn]. intros. repeat split; auto; lia.
Qed.

(** One call of [waitKey] for every frame written. *)
Lemma frame_loop_keys (n : nat) : forall st st' ex,
  frame_loop n st = (st', ex) ->
  exists new,
    out_frames (p_out st') = out_frames (p_out st) ++ new /\
    keys (p_world st') = skipn (List.length new) (keys (p_world st)).
Proof.
  induction n as [|n IH]; intros st st' ex; cbn [frame_loop].
  - intros H. injection H as <- <-. exists []. now rewrite app_nil_r.
  - destruct (read (p_cap st)) as [[f|] cap].
    2:{ intros H. injection H as <- <-. exists []. now rewrite app_nil_r. }
    destruct (process_frame f) as [e|g].
    { intros H. injection H as <- <-. exists []. now rewrite app_nil_r. }
    unfold waitKey, imshow.
    assert (Hkeys' : keys (if existsb (String.eqb "Depth Anywhere") (windows (p_world st))
                           then p_world st
                           else set_windows (windows (p_world st) ++ ["Depth Anywhere"%string])
                                  (p_world st)) = keys (p_world st))
      by (destruct (existsb _ _); reflexivity).
    rewrite Hkeys'.
    destruct (keys (p_world st)) as [|k ks] eqn:Ek.
    + rewrite is_quit_no_key. intros H. apply IH in H.
      destruct H as (new & Hfr & Hks). revert Hfr Hks. unfold write. proj_simpl.
      rewrite Hkeys', skipn_nil_Z. intros Hfr Hks.
      exists (g :: new). rewrite Hfr, <- app_assoc. split; [reflexivity|].
      now rewrite skipn_nil_Z.
    + destruct (is_quit k).
      * intros H. injection H as <- <-. exists [g]. unfold write. proj_simpl.
        split; reflexivity.
      * intros H. apply IH in H.
        destruct H as (new & Hfr & Hks). revert Hfr Hks. unfold write. proj_simpl.
        intros Hfr Hks.
        exists (g :: new). rewrite Hfr, <- app_assoc. split; [reflexivity|].
        exact Hks.
Qed.

(** [process_video] on an opened video, in terms of its frame loop. *)
Lemma process_video_run (w : World) (path output : string) (v : Video)
    (st' : Proc) (ex : loop_exit) :
  files w path = Some v ->
  frame_loop (Z.to_nat (reported_frames v))
    (mk_Proc w (VideoCapture_open w path)
       (initialize_video_writer (VideoCapture_open w path) output)) = (st', ex) ->
  process_video path output w = (finally st', outcome ex) /\
  cap_log (finally st') = cap_log w ++ [release_capture (p_cap st')] /\
  writer_log (finally st') = writer_log w ++ [release_writer (p_out st')] /\
  windows (finally st') = [] /\
  keys (finally st') = keys (p_world st').
Proof.
  intros Hv Hloop.
  assert (Hpo : process_opened (VideoCapture_open w path) output w = (finally st', ex)).
  { unfold process_opened.
    replace (int (get (VideoCapture_open w path) CAP_PROP_FRAME_COUNT))
      with (reported_frames v).
    - now rewrite Hloop.
    - unfold get, VideoCapture_open. proj_simpl. now rewrite Hv, int_inject_Z. }
  split; [rewrite (process_video_opened _ _ _ _ Hv), Hpo; reflexivity|].
  apply frame_loop_inv in Hloop.
  destruct Hloop as (_ & _ & (_ & _ & Hcl & Hwl) & _).
  revert Hcl Hwl. proj_simpl. intros Hcl Hwl.
  unfold finally, destroyAllWindows, set_windows, log_writer, log_capture. proj_simpl.
  rewrite Hcl, Hwl. auto.
Qed.

(** ** Further properties of one video *)

(** X1: the test of the quit key looks at the low eight bits of the key code
    only: it holds exactly when they are the code of [q], so not for "no
    key" (-1) and not for an upper-case Q. *)
Theorem quit_key_is_low_byte_q (k : Z) :
  (is_quit k = true <-> k mod 256 = 113) /\
  is_quit (-1) = false /\ is_quit (ord "Q") = false /\
  is_quit (k + 256) = is_quit k.
Proof.
  assert (H : forall x, is_quit x = (x mod 256 =? 113)).
  { intros x. unfold is_quit. change 255 with (Z.ones 8).
    rewrite Z.land_ones by lia. reflexivity. }
  split; [rewrite H; apply Z.eqb_eq|]. split; [reflexivity|]. split; [reflexivity|].
  rewrite !H. replace (k + 256) with (k + 1 * 256) by lia.
  now rewrite Z.mod_add by lia.
Qed.

(** X2: when no pending key is the quit key and every frame of the video is
    processed without error, [process_video] returns normally and the
    output holds exactly as many frames as the smaller of the reported
    frame count and the number of frames the video has. *)
Theorem output_has_min_of_reported_and_available (w : World) (path output : string)
    (v : Video) (N : nat) :
  files w path = Some v ->
  has_frames v N ->
  Forall (fun x => is_quit x = false) (keys w) ->
  (forall i f, stream v i = Some f -> exists g, process_frame f = inr g) ->
  exists w' c o,
    process_video path output w = (w', inr tt) /\
    cap_log w' = cap_log w ++ [c] /\ writer_log w' = writer_log w ++ [o] /\
    List.length (out_frames o) = Nat.min (Z.to_nat (reported_frames v)) N /\
    cap_pos c = Nat.min (Z.to_nat (reported_frames v)) N.
Proof.
  intros Hv HN Hkeys Hproc.
  set (T := Z.to_nat (reported_frames v)).
  set (st0 := mk_Proc w (VideoCapture_open w path)
                (initialize_video_writer (VideoCapture_open w path) output)).
  assert (Hsrc : cap_source (p_cap st0) = Some v) by exact Hv.
  assert (Hsteps : forall m, (m <= N)%nat -> forall n,
            exists st1, frame_loop (m + n) st0 = frame_loop n st1 /\
              cap_source (p_cap st1) = Some v /\ cap_released (p_cap st1) = false /\
              cap_pos (p_cap st1) = m /\
              List.length (out_frames (p_out st1)) = m).
  { intros m Hm n.
    destruct (frame_loop_steps m n st0 v Hsrc eq_refl) as
      (st1 & Hl & Hs & Hr & Hps & _ & Hlen & _).
    - apply Forall_firstn_of. exact Hkeys.
    - intros j Hj. destruct (HN j) as (Hex & _).
      destruct Hex as (f & Hf); [lia|]. destruct (Hproc j f Hf) as (g & Hg).
      exists f, g. split; [exact Hf | exact Hg].
    - exists st1. split; [exact Hl|]. split; [exact Hs|]. split; [exact Hr|].
      split; [exact Hps | exact Hlen]. }
  destruct (le_lt_dec T N) as [Hle | Hlt].
  - destruct (Hsteps T Hle 0%nat) as (st1 & Hl & _ & _ & Hps & Hlen).
    rewrite Nat.add_0_r in Hl. cbn [frame_loop] in Hl.
    destruct (process_video_run w path output v st1 RangeExhausted Hv Hl)
      as (Hrun & Hc & Ho & _).
    exists (finally st1), (release_capture (p_cap st1)), (release_writer (p_out st1)).
    split; [exact Hrun|]. split; [exact Hc|]. split; [exact Ho|].
    unfold release_capture, release_writer. proj_simpl.
    rewrite Nat.min_l by exact Hle. auto.
  - destruct (Hsteps N (Nat.le_refl N) (T - N)%nat) as (st1 & Hl & Hs & Hr & Hps & Hlen).
    replace (N + (T - N))%nat with T in Hl by lia.
    destruct (T - N)%nat as [|n] eqn:En; [lia|].
    cbn [frame_loop] in Hl. unfold read in Hl.
    rewrite Hs, Hr, Hps in Hl.
    destruct (HN N) as (_ & Hnone). rewrite (Hnone (Nat.le_refl N)) in Hl.
    match type of Hl with _ = (?s, _) =>
      destruct (process_video_run w path output v s ReadFailed Hv Hl)
        as (Hrun & Hc & Ho & _);
      exists (finally s), (release_capture (p_cap s)), (release_writer (p_out s)) end.
    split; [exact Hrun|]. split; [exact Hc|]. split; [exact Ho|].
    unfold release_capture, release_writer. proj_simpl.
    rewrite Nat.min_r by lia. auto.
Qed.

(** X3: a container that reports no frames (a count of zero or less) gives
    an output without frames: [process_video] returns normally without one
    call of [read], whatever the stream holds. *)
Theorem no_reported_frames_no_output (w : World) (path output : string) (v : Video) :
  files w path = Some v ->
  reported_frames v <= 0 ->
  exists w' c o,
    process_video path output w = (w', inr tt) /\
    cap_log w' = cap_log w ++ [c] /\ writer_log w' = writer_log w ++ [o] /\
    out_frames o = [] /\ cap_reads c = 0%nat /\ keys w' = keys w.
Proof.
  intros Hv Hz.
  set (st0 := mk_Proc w (VideoCapture_open w path)
                (initialize_video_writer (VideoCapture_open w path) output)).
  assert (Hl : frame_loop (Z.to_nat (reported_frames v)) st0 = (st0, RangeExhausted)).
  { replace (Z.to_nat (reported_frames v)) with 0%nat by lia. reflexivity. }
  destruct (process_video_run w path output v st0 RangeExhausted Hv Hl)
    as (Hrun & Hc & Ho & _ & Hk).
  exists (finally st0), (release_capture (p_cap st0)), (release_writer (p_out st0)).
  split; [exact Hrun|]. split; [exact Hc|]. split; [exact Ho|].
  split; [reflexivity|]. split; [reflexivity | exact Hk].
Qed.

(** X4: an exception of [process_frame] on frame number [i], after [i]
    frames without error and without the quit key, leaves [process_video]
    as that exception, with the [i] earlier frames written and the capture
    and the writer released; [batch_process_videos] ends with it too, and
    the files after this one are not touched. *)
Theorem exception_in_frame_aborts_batch (w : World) (path output : string)
    (v : Video) (i : nat) (bad : frame) (e : exn) :
  files w path = Some v ->
  Z.of_nat i < reported_frames v ->
  Forall (fun x => is_quit x = false) (firstn i (keys w)) ->
  (forall j, (j < i)%nat ->
     exists f g, stream v j = Some f /\ process_frame f = inr g) ->
  stream v i = Some bad ->
  process_frame bad = inl e ->
  exists w' c o,
    process_video path output w = (w', inl e) /\
    cap_log w' = cap_log w ++ [c] /\ writer_log w' = writer_log w ++ [o] /\
    List.length (out_frames o) = i /\ cap_pos c = S i /\
    cap_released c = true /\ out_released o = true /\ windows w' = [] /\
    forall input_folder output_folder F rest,
      path = os_path_join input_folder F ->
      output = os_path_join output_folder ("processed_" ++ F) ->
      for_each_video input_folder output_folder (F :: rest) w = (w', inl e).
Proof.
  intros Hv Hi Hkeys Hfr Hbad He.
  set (st0 := mk_Proc w (VideoCapture_open w path)
                (initialize_video_writer (VideoCapture_open w path) output)).
  assert (Hsrc : cap_source (p_cap st0) = Some v) by exact Hv.
  destruct (frame_loop_steps i (Z.to_nat (reported_frames v) - i) st0 v Hsrc eq_refl)
    as (st1 & Hl & Hs & Hr & Hps & _ & Hlen & _).
  - exact Hkeys.
  - intros j Hj. destruct (Hfr j Hj) as (f & g & Hf & Hg). exists f, g. auto.
  - replace (i + (Z.to_nat (reported_frames v) - i))%nat
      with (Z.to_nat (reported_frames v)) in Hl by lia.
    destruct (Z.to_nat (reported_frames v) - i)%nat as [|n] eqn:En; [lia|].
    cbn [frame_loop] in Hl. unfold read in Hl.
    revert Hps Hlen. unfold st0, VideoCapture_open, initialize_video_writer,
      VideoWriter_open. proj_simpl. intros Hps Hlen.
    rewrite Hs, Hr, Hps in Hl. cbn [plus] in Hl. rewrite Hbad, He in Hl.
    match type of Hl with _ = (?s, _) =>
      destruct (process_video_run w path output v s (Raised e) Hv Hl)
        as (Hrun & Hc & Ho & Hwin & _);
      exists (finally s), (release_capture (p_cap s)), (release_writer (p_out s)) end.
    split; [exact Hrun|]. split; [exact Hc|]. split; [exact Ho|].
    unfold release_capture, release_writer. proj_simpl.
    split; [exact Hlen|]. do 3 (split; [reflexivity|]). split; [exact Hwin|].
    intros input_folder output_folder F rest -> ->.
    cbn [for_each_video]. rewrite Hrun. reflexivity.
Qed.

(** X5: in every run of [process_video] on an opened video, the [i]-th
    frame of the output is [process_frame] of the [i]-th frame of the
    source: no frame is skipped, repeated or reordered, and a frame does not
    depend on the frames before it. *)
Theorem output_frames_are_processed_source_frames (w w' : World)
    (path output : string) (v : Video) (r : result unit) :
  files w path = Some v ->
  process_video path output w = (w', r) ->
  exists o,
    writer_log w' = writer_log w ++ [o] /\
    forall i g, nth_error (out_frames o) i = Some g ->
      exists f, stream v i = Some f /\ process_frame f = inr g.
Proof.
  intros Hv Hrun. apply process_video_spec in Hrun.
  destruct Hrun as (_ & _ & [(Hnone & _) | (v' & c & o & Hv' & Hran & _ & Ho & _)]);
    [congruence|].
  rewrite Hv in Hv'. injection Hv' as <-.
  destruct Hran as (_ & _ & (_ & _ & _ & Hfrom)).
  exists o. split; [exact Ho | exact Hfrom].
Qed.

(** X6: [process_video] polls the keyboard once for every frame it writes:
    the key presses left for the next video are the pending ones without
    the first as many as the output has frames. *)
Theorem one_key_poll_per_written_frame (w w' : World) (path output : string)
    (v : Video) (r : result unit) :
  files w path = Some v ->
  process_video path output w = (w', r) ->
  exists o,
    writer_log w' = writer_log w ++ [o] /\
    keys w' = skipn (List.length (out_frames o)) (keys w).
Proof.
  intros Hv Hrun.
  destruct (frame_loop (Z.to_nat (reported_frames v))
              (mk_Proc w (VideoCapture_open w path)
                 (initialize_video_writer (VideoCapture_open w path) output)))
    as [st' ex] eqn:Hl.
  destruct (process_video_run w path output v st' ex Hv Hl) as (Hpv & _ & Ho & _ & Hk).
  rewrite Hpv in Hrun. injection Hrun as <- <-.
  exists (release_writer (p_out st')). split; [exact Ho|].
  apply frame_loop_keys in Hl. destruct Hl as (new & Hfr & Hks).
  revert Hfr Hks. unfold initialize_video_writer, VideoWriter_open. proj_simpl.
  cbn [app]. intros Hfr Hks.
  rewrite Hk. unfold release_writer. proj_simpl. now rewrite Hfr.
Qed.

(** ** Further properties of the normalisation *)

Lemma np_min_max_defined (a : ndarray float32) :
  (0 < shape0 a)%nat -> (0 < shape1 a)%nat ->
  exists lo hi, np_min (squeeze a) = Some lo /\ np_max (squeeze a) = Some hi.
Proof.
  intros H0 H1. unfold np_min, np_max.
  destruct (sq_elements (squeeze a)) as [|x xs] eqn:E.
  - assert (Hin : In (item a 0 0) (sq_elements (squeeze a)))
      by (apply squeeze_elements_In; exists 0%nat, 0%nat; auto).
    rewrite E in Hin. destruct Hin.
  - eexists. eexists. split; reflexivity.
Qed.

Lemma np_min_max_empty (a : ndarray float32) :
  (shape0 a = 0 \/ shape1 a = 0)%nat ->
  np_min (squeeze a) = None /\ np_max (squeeze a) = None.
Proof.
  intros He. unfold np_min, np_max.
  destruct (sq_elements (squeeze a)) as [|x xs] eqn:E; [split; reflexivity|].
  assert (Hin : In x (sq_elements (squeeze a))) by (rewrite E; now left).
  apply squeeze_elements_In in Hin. destruct Hin as (i & j & Hi & Hj & _). lia.
Qed.

(** Rounding keeps the order of two numbers that are not negative. *)
Lemma round32_mono (x y a b : Q) :
  (0 <= x)%Q -> (x <= y)%Q -> round32 x = Fin a -> round32 y = Fin b ->
  (0 <= a)%Q /\ (a <= b)%Q.
Proof.
  intros H0 Hle Ha Hb.
  destruct (round32_nonneg_le x y b H0 Hle Hb) as (a' & Ha' & Hpos & Hab).
  rewrite Ha in Ha'. injection Ha' as <-. auto.
Qed.

(** X7: the image keeps the order of the depths: where the depth is not
    larger, the grey value is not larger (finite float32 depths, maximum
    above minimum, finite range). *)
Theorem visualize_depth_keeps_order (depth : ndarray float32) (lo hi d : Q) :
  finite_depths depth ->
  np_min (squeeze depth) = Some (Fin lo) ->
  np_max (squeeze depth) = Some (Fin hi) ->
  (lo < hi)%Q ->
  round32 (hi - lo) = Fin d ->
  exists g,
    visualize_depth depth = inr (squeeze g) /\ same_shape g depth /\
    forall i j i' j' v v',
      (i < shape0 depth)%nat -> (j < shape1 depth)%nat ->
      (i' < shape0 depth)%nat -> (j' < shape1 depth)%nat ->
      item depth i j = Fin v -> item depth i' j' = Fin v' ->
      (v <= v')%Q ->
      item g i j <= item g i' j'.
Proof.
  intros Hfin Hmin Hmax Hlt Hd.
  destruct (visualize_depth_pixels depth lo hi d Hfin Hmin Hmax Hlt Hd)
    as (Hpos & g & Hg & Hsh & Hpix).
  exists g. split; [exact Hg|]. split; [exact Hsh|].
  intros i j i' j' v v' Hi Hj Hi' Hj' Ev Ev' Hle.
  destruct (Hpix i j Hi Hj)
    as (v0 & a & q & p & E & Hv0 & _ & Ha & Hq & Hp & Hp0 & _ & ->).
  rewrite Ev in E. injection E as <-.
  destruct (Hpix i' j' Hi' Hj')
    as (v0 & a' & q' & p' & E & _ & _ & Ha' & Hq' & Hp' & Hp0' & _ & ->).
  rewrite Ev' in E. injection E as <-.
  destruct (round32_mono (v - lo) (v' - lo) a a') as (Ha0 & Haa); [lra | lra | assumption..|].
  assert (Hinv : (0 < / d)%Q) by (apply Qinv_lt_0_compat; exact Hpos).
  destruct (round32_mono (a / d) (a' / d) q q') as (Hq0 & Hqq); [| |assumption..|].
  { unfold Qdiv. apply Qmult_le_0_compat; [exact Ha0 | apply Qlt_le_weak, Hinv]. }
  { unfold Qdiv. apply Qmult_le_compat_r; [exact Haa | apply Qlt_le_weak, Hinv]. }
  destruct (round32_mono (q * 255) (q' * 255) p p') as (_ & Hpp); [lra | lra | assumption..|].
  rewrite !int_nonneg_floor by assumption. now apply Qfloor_resp_le.
Qed.

(** X9: [visualize_depth] raises ValueError exactly when the depth map has
    no element; when it has one it returns the squeeze of an image of the
    shape of the depth map: a vector when exactly one side is 1, a scalar
    when both are. *)
Theorem visualize_depth_fails_iff_empty (depth : ndarray float32) :
  (visualize_depth depth =
     inl (ValueError "zero-size array to reduction operation minimum which has no identity") <->
   (shape0 depth = 0 \/ shape1 depth = 0)%nat) /\
  ((exists g, visualize_depth depth = inr (squeeze g) /\ same_shape g depth) <->
   (0 < shape0 depth /\ 0 < shape1 depth)%nat) /\
  (forall out, visualize_depth depth = inr out ->
     match out with
     | Scalar _ => shape0 depth = 1%nat /\ shape1 depth = 1%nat
     | Vector n _ =>
         (shape0 depth = 1%nat /\ shape1 depth = n /\ n <> 1%nat) \/
         (shape1 depth = 1%nat /\ shape0 depth = n /\ n <> 1%nat)
     | Matrix a =>
         shape0 a = shape0 depth /\ shape1 a = shape1 depth /\
         shape0 depth <> 1%nat /\ shape1 depth <> 1%nat
     end).
Proof.
  destruct (Nat.eq_dec (shape0 depth) 0) as [E0 | E0];
    [|destruct (Nat.eq_dec (shape1 depth) 0) as [E1 | E1]].
  1,2: assert (He : (shape0 depth = 0 \/ shape1 depth = 0)%nat) by tauto;
       destruct (np_min_max_empty depth He) as (Hmin & Hmax);
       unfold visualize_depth; rewrite Hmin; cbv zeta; split; [|split].
  1,4: split; [intros _; exact He | intros _; reflexivity].
  1,3: split; [intros (g & Hg & _); discriminate | lia].
  1,2: intros out H; discriminate.
  destruct (np_min_max_defined depth) as (lo & hi & Hmin & Hmax); [lia | lia|].
  destruct (visualize_depth_squeezed depth lo hi Hmin Hmax) as (g & Hg & (Hs0 & Hs1) & _).
  split; [|split].
  - split; [rewrite Hg; discriminate | lia].
  - split; [lia | intros _; exists g; split; [exact Hg | split; assumption]].
  - intros out H. rewrite Hg in H. injection H as <-.
    unfold squeeze. rewrite Hs0, Hs1.
    destruct (Nat.eqb_spec (shape0 depth) 1) as [F0 | F0];
      destruct (Nat.eqb_spec (shape1 depth) 1) as [F1 | F1].
    + auto.
    + left. auto.
    + right. auto.
    + auto.
Qed.

(** ** Further properties of the selection of files *)

Lemma extension_processed (f : string) :
  extension ("processed_" ++ f) = extension f.
Proof.
  destruct (extension f) as [|c e] eqn:E.
  - cbn. now rewrite E.
  - rewrite <- E. apply extension_append_r. congruence.
Qed.

(** X10: the name of an output file passes the selection of input files
    exactly when the name of its source does: a run whose output folder is
    its input folder leaves files that the next run selects again. *)
Theorem processed_name_selected_like_source (f : string) :
  is_video ("processed_" ++ f) = is_video f.
Proof.
  pose proof (is_video_spec ("processed_" ++ f)) as H1.
  pose proof (is_video_spec f) as H2.
  unfold has_video_extension in H1. rewrite extension_processed in H1.
  fold (has_video_extension f) in H1.
  destruct (is_video ("processed_" ++ f)), (is_video f); try reflexivity.
  - symmetry. apply H2, H1. reflexivity.
  - apply H1, H2. reflexivity.
Qed.

(** X11: on a folder none of whose entries has a video extension,
    [batch_process_videos] returns normally and leaves the world as it was:
    nothing is opened and nothing is written. *)
Theorem folder_without_videos_left_alone (w : World)
    (input_folder output_folder : string) (entries : list string) :
  listing w input_folder = Some entries ->
  (forall f, In f entries -> ~ has_video_extension f) ->
  batch_process_videos input_folder output_folder w = (w, inr tt).
Proof.
  intros Hl Hno. unfold batch_process_videos, listdir. rewrite Hl.
  assert (E : filter is_video entries = []).
  { clear Hl. induction entries as [|f fs IH]; [reflexivity|]. cbn [filter].
    destruct (is_video f) eqn:Ef.
    - exfalso. apply (Hno f); [now left | now apply is_video_spec].
    - apply IH. intros x Hx. apply Hno. now right. }
  rewrite E. reflexivity.
Qed.

End Pipeline.

(** ** The theorems at concrete inputs *)

Abbreviation run_video := (process_video ex_model ex_lanczos4 ex_gaussian5x5 ex_uint8_of_invalid).
Abbreviation run_opened := (process_opened ex_model ex_lanczos4 ex_gaussian5x5 ex_uint8_of_invalid).
Abbreviation run_batch :=
  (batch_process_videos ex_model ex_lanczos4 ex_gaussian5x5 ex_uint8_of_invalid).
Abbreviation run_frame := (process_frame ex_model ex_lanczos4 ex_gaussian5x5 ex_uint8_of_invalid).

Lemma ex_video_has_3_frames : has_frames ex_video 3.
Proof.
  intros i. split.
  - intros Hi. destruct i as [|[|[|i]]]; cbn; eauto. lia.
  - intros Hi. do 3 (destruct i as [|i]; [lia|]). cbn. destruct i; reflexivity.
Defined.

Lemma ex_video_frames_4_by_6 (i : nat) (f : frame) :
  stream ex_video i = Some f -> shape0 f = 4%nat /\ shape1 f = 6%nat.
Proof.
  destruct i as [|[|[|[|i]]]]; cbn; intros H; try discriminate;
    injection H as <-; split; reflexivity.
Defined.

Lemma ex_video_frames_processed (j : nat) :
  (j <= 1)%nat -> exists f g, stream ex_video j = Some f /\ run_frame f = inr g.
Proof.
  intros Hj. destruct j as [|[|j]]; [| |lia].
  - exists (ex_frame 200). destruct (run_frame (ex_frame 200)) as [e|g] eqn:E.
    + vm_compute in E. discriminate.
    + exists g. split; reflexivity.
  - exists (ex_frame 180). destruct (run_frame (ex_frame 180)) as [e|g] eqn:E.
    + vm_compute in E. discriminate.
    + exists g. split; reflexivity.
Defined.

(** C1 on the three 4 by 6 frames of [ex_video]. *)
Lemma output_frames_bounded_and_sized_witness :
  exists o,
    writer_log (fst (run_video "in/a.mp4" "out/processed_a.mp4" (ex_world []))) = [o] /\
    (List.length (out_frames o) <= 3)%nat /\
    Forall (fun g => shape0 g = 4%nat /\ shape1 g = 6%nat) (out_frames o).
Proof.
  destruct (output_frames_bounded_and_sized ex_model ex_lanczos4 ex_gaussian5x5
              ex_uint8_of_invalid (ex_world [])
              (fst (run_video "in/a.mp4" "out/processed_a.mp4" (ex_world [])))
              "in/a.mp4" "out/processed_a.mp4" ex_video 3
              (snd (run_video "in/a.mp4" "out/processed_a.mp4" (ex_world []))))
    as (o & Hlog & _ & Hlen & _ & Hsz).
  - reflexivity.
  - exact ex_video_has_3_frames.
  - apply surjective_pairing.
  - exists o. split; [exact Hlog|]. split; [exact Hlen|].
    apply Hsz. exact ex_video_frames_4_by_6.
Defined.

(** C8 on a run that an exception of the model ends. *)
Lemma resources_released_on_every_exit_witness :
  snd (run_opened (VideoCapture_open (ex_world []) "in/c.avi") "out/processed_c.avi"
         (ex_world [])) = Raised (RuntimeError "out of memory") /\
  exists c o,
    cap_log (fst (run_video "in/c.avi" "out/processed_c.avi" (ex_world []))) = [c] /\
    writer_log (fst (run_video "in/c.avi" "out/processed_c.avi" (ex_world []))) = [o] /\
    cap_released c = true /\ out_released o = true /\
    windows (fst (run_video "in/c.avi" "out/processed_c.avi" (ex_world []))) = [].
Proof.
  split; [vm_compute; reflexivity|].
  destruct (resources_released_on_every_exit ex_model ex_lanczos4 ex_gaussian5x5
              ex_uint8_of_invalid (ex_world [])
              (fst (run_opened (VideoCapture_open (ex_world []) "in/c.avi")
                      "out/processed_c.avi" (ex_world [])))
              "in/c.avi" "out/processed_c.avi" ex_failing_video
              (snd (run_opened (VideoCapture_open (ex_world []) "in/c.avi")
                      "out/processed_c.avi" (ex_world []))))
    as (Hrun & c & o & Hc & _ & Ho & _ & Hcr & _ & Hor & Hwin).
  - reflexivity.
  - apply surjective_pairing.
  - rewrite Hrun. cbn [fst]. exists c, o. auto.
Defined.

(** C10 on a stream without end that is reported as two frames. *)
Lemma frame_loop_bounded_by_reported_count_witness :
  exists w' r c o,
    run_video "in/b.MOV" "out/processed_b.MOV" (ex_world []) = (w', r) /\
    cap_log w' = [c] /\ writer_log w' = [o] /\
    (cap_reads c <= 2)%nat /\ (List.length (out_frames o) <= 2)%nat.
Proof.
  destruct (frame_loop_bounded_by_reported_count ex_model ex_lanczos4 ex_gaussian5x5
              ex_uint8_of_invalid (ex_world []) "in/b.MOV" "out/processed_b.MOV"
              ex_endless_video)
    as (w' & r & c & o & Hrun & Hc & Ho & Hrd & Hps & Hlen).
  - reflexivity.
  - exists w', r, c, o. cbn in Hrd. repeat split; auto; lia.
Defined.

(** C7 with no key at the first poll and [q] at the second. *)
Lemma quit_key_ends_current_video_only_witness :
  exists w' c o,
    run_video "in/a.mp4" "out/processed_a.mp4" (ex_world [-1; 113; 5]) = (w', inr tt) /\
    cap_log w' = [c] /\ writer_log w' = [o] /\
    cap_pos c = 2%nat /\ List.length (out_frames o) = 2%nat /\
    cap_released c = true /\ out_released o = true /\ windows w' = [] /\
    keys w' = [5].
Proof.
  destruct (quit_key_ends_current_video_only ex_model ex_lanczos4 ex_gaussian5x5
              ex_uint8_of_invalid (ex_world [-1; 113; 5])
              "in/a.mp4" "out/processed_a.mp4" ex_video [-1] 113 [5])
    as (w' & c & o & Hrun & Hc & Ho & _ & Hps & Hlen & Hcr & Hor & Hwin & Hk & _).
  - reflexivity.
  - reflexivity.
  - repeat constructor.
  - reflexivity.
  - cbn. lia.
  - exact ex_video_frames_processed.
  - exists w', c, o. auto 10.
Defined.

(** C4 on two videos, the first of which cannot be opened. *)
Lemma unopenable_video_aborts_batch_witness :
  run_batch "two" "out" (ex_world [])
  = (log_capture (VideoCapture_open (ex_world []) "two/first.mp4") (ex_world []),
     inl (IOError "Cannot open video two/first.mp4")) /\
  writer_log (fst (run_batch "two" "out" (ex_world []))) = [].
Proof.
  destruct (unopenable_video_aborts_batch ex_model ex_lanczos4 ex_gaussian5x5
              ex_uint8_of_invalid (ex_world []) (ex_world []) "two" "out"
              ["first.mp4"; "second.mp4"]%string [] ["second.mp4"%string] "first.mp4")
    as (_ & Hrun & Hw & _).
  - reflexivity.
  - reflexivity.
  - reflexivity.
  - reflexivity.
  - split; [exact Hrun|]. rewrite Hrun. exact Hw.
Defined.

Lemma ex_video_processable :
  frames_processable ex_model ex_lanczos4 ex_gaussian5x5 ex_uint8_of_invalid ex_video.
Proof.
  intros i f. destruct i as [|[|[|[|i]]]]; cbn [stream ex_video nth_error];
    intros H; try discriminate; injection H as <-.
  - destruct (run_frame (ex_frame 200)) as [e|g] eqn:E;
      [vm_compute in E; discriminate | exists g; reflexivity].
  - destruct (run_frame (ex_frame 180)) as [e|g] eqn:E;
      [vm_compute in E; discriminate | exists g; reflexivity].
  - destruct (run_frame (ex_frame 160)) as [e|g] eqn:E;
      [vm_compute in E; discriminate | exists g; reflexivity].
Defined.

Lemma ex_endless_video_processable :
  frames_processable ex_model ex_lanczos4 ex_gaussian5x5 ex_uint8_of_invalid
    ex_endless_video.
Proof.
  intros i f. cbn [stream ex_endless_video]. intros H. injection H as <-.
  destruct (run_frame (ex_frame 150)) as [e|g] eqn:E;
    [vm_compute in E; discriminate | exists g; reflexivity].
Defined.



(** C6 on the same folder: the run returns normally, the two videos are
    opened and have an output each, the text file has none. *)
Lemma only_video_extensions_processed_witness :
  snd (run_batch "in" "out" (ex_world [])) = inr tt /\
  map cap_path (cap_log (fst (run_batch "in" "out" (ex_world []))))
    = ["in/a.mp4"; "in/b.MOV"]%string /\
  map out_path (writer_log (fst (run_batch "in" "out" (ex_world []))))
    = ["out/processed_a.mp4"; "out/processed_b.MOV"]%string /\
  ~ In "out/processed_notes.txt"%string
      (map out_path (writer_log (fst (run_batch "in" "out" (ex_world []))))).
Proof.
  destruct (only_video_extensions_processed ex_model ex_lanczos4 ex_gaussian5x5
              ex_uint8_of_invalid (ex_world [])
              (fst (run_batch "in" "out" (ex_world []))) "in" "out"
              ["a.mp4"; "notes.txt"; "b.MOV"; "clip.gif"]%string
              (snd (run_batch "in" "out" (ex_world []))))
    as (_ & tried & rest & caps & outs & _ & Hcl & Hlog & _ & _ & Hign & _ & Hpos).
  - reflexivity.
  - apply surjective_pairing.
  - destruct Hpos as (Hok & Hc & Ho).
    { intros F [<- | [<- | [<- | [<- | []]]]] Hext.
      - exists ex_video. split; [reflexivity | exact ex_video_processable].
      - exfalso. revert Hext. unfold has_video_extension. cbn. intuition discriminate.
      - exists ex_endless_video.
        split; [reflexivity | exact ex_endless_video_processable].
      - exfalso. revert Hext. unfold has_video_extension. cbn. intuition discriminate. }
    split; [exact Hok|]. rewrite Hcl, Hlog.
    split; [exact Hc|]. split; [exact Ho|].
    apply (Hign "notes.txt"%string).
    + cbn. auto.
    + unfold has_video_extension. cbn. intuition discriminate.
Defined.

Lemma ex_depth_finite : finite_depths ex_depth.
Proof.
  intros i j Hi Hj. cbn [shape0 shape1 ex_depth] in Hi, Hj.
  destruct i as [|[|i]]; [| |lia]; (destruct j as [|[|j]]; [| |lia]);
    eexists; (split; [reflexivity | vm_compute; reflexivity]).
Defined.

(** C9 as amended, on a depth map with values 0, 1, 2 and 3. *)
Lemma visualize_depth_rescales_to_uint8_witness :
  exists g,
    visualize_depth ex_uint8_of_invalid ex_depth = inr (squeeze g) /\
    item g 0 0 = 0 /\ item g 1 0 = 85 /\ item g 0 1 = 170 /\ item g 1 1 = 255.
Proof.
  destruct (visualize_depth_rescales_to_uint8 ex_uint8_of_invalid ex_depth 0 3 3)
    as (g & Hg & _ & Hpix & _).
  - exact ex_depth_finite.
  - reflexivity.
  - reflexivity.
  - reflexivity.
  - vm_compute. reflexivity.
  - exists g. split; [exact Hg|].
    split; [|split; [|split]].
    + destruct (Hpix 0%nat 0%nat) as (v & a & q & p & Ev & Ha & Hq & Hp & Eg & _);
        [cbn; lia | cbn; lia|].
      cbn in Ev. injection Ev as <-.
      vm_compute in Ha. injection Ha as <-.
      vm_compute in Hq. injection Hq as <-.
      vm_compute in Hp. injection Hp as <-. exact Eg.
    + destruct (Hpix 1%nat 0%nat) as (v & a & q & p & Ev & Ha & Hq & Hp & Eg & _);
        [cbn; lia | cbn; lia|].
      cbn in Ev. injection Ev as <-.
      vm_compute in Ha. injection Ha as <-.
      vm_compute in Hq. injection Hq as <-.
      vm_compute in Hp. injection Hp as <-. exact Eg.
    + destruct (Hpix 0%nat 1%nat) as (v & a & q & p & Ev & Ha & Hq & Hp & Eg & _);
        [cbn; lia | cbn; lia|].
      cbn in Ev. injection Ev as <-.
      vm_compute in Ha. injection Ha as <-.
      vm_compute in Hq. injection Hq as <-.
      vm_compute in Hp. injection Hp as <-. exact Eg.
    + destruct (Hpix 1%nat 1%nat) as (v & a & q & p & Ev & Ha & Hq & Hp & Eg & _);
        [cbn; lia | cbn; lia|].
      cbn in Ev. injection Ev as <-.
      vm_compute in Ha. injection Ha as <-.
      vm_compute in Hq. injection Hq as <-.
      vm_compute in Hp. injection Hp as <-. exact Eg.
Defined.

(** C9 as stated fails.  On a row of depths 0, 8585987 / 2^23 and 3 the
    result is a vector, not an image of the shape of the depth map, and its
    middle element is 87 where [(v - min) / (max - min) * 255] cut to an
    integer is 86: each of the three operations rounds to float32.  On the
    depths -2^127, 0 and 2^127 the maximum is above the minimum, but
    [max - min] is infinite in float32: every element of the result is 0,
    also at the maximum. *)
Lemma visualize_depth_is_not_exact_rescaling :
  (exists v,
     visualize_depth ex_uint8_of_invalid ex_depth_row = inr (Vector 3 v) /\
     v 1%nat = 87 /\
     int (((8585987 # 8388608) - 0) / (3 - 0) * 255)%Q = 86) /\
  (exists v,
     visualize_depth ex_uint8_of_invalid ex_depth_wide = inr (Vector 3 v) /\
     v 0%nat = 0 /\ v 1%nat = 0 /\ v 2%nat = 0 /\
     int ((0 - - (2 ^ 127)) / (2 ^ 127 - - (2 ^ 127)) * 255)%Q = 127 /\
     int ((2 ^ 127 - - (2 ^ 127)) / (2 ^ 127 - - (2 ^ 127)) * 255)%Q = 255).
Proof.
  split.
  - eexists. split; [reflexivity|]. split; vm_compute; reflexivity.
  - eexists. split; [reflexivity|]. repeat split; vm_compute; reflexivity.
Qed.

(** C3 as amended, on a 640 by 480 image. *)
Lemma resize_size_multiple_of_14_witness :
  (0 < shape0 ex_image_vga)%nat /\ (0 < shape1 ex_image_vga)%nat /\
  exists resized out,
    Resize_call ex_lanczos4 the_resize ex_image_vga = inr resized /\
    get_transform ex_lanczos4 ex_image_vga = inr out /\ same_shape out resized /\
    (let w := Z.of_nat (shape1 ex_image_vga) in
     let h := Z.of_nat (shape0 ex_image_vga) in
     let w' := Z.of_nat (shape1 resized) in
     let h' := Z.of_nat (shape0 resized) in
     (14 | w') /\ (14 | h') /\ 532 <= w' /\ 532 <= h' /\ Z.min w' h' = 532 /\
     Z.abs (w' * h - h' * w) <= 7 * Z.min w h) /\
    (forall i j,
       item resized i j
       = ex_lanczos4 _ ex_image_vga (shape0 resized) (shape1 resized) i j /\
       item out i j =
       let '(r, g, b) := item resized i j in
       ((r - (485 # 1000)) / (229 # 1000), (g - (456 # 1000)) / (224 # 1000),
        (b - (406 # 1000)) / (225 # 1000))%Q).
Proof.
  split; [cbn; lia|]. split; [cbn; lia|].
  apply (resize_size_multiple_of_14 ex_lanczos4 ex_image_vga); cbn; lia.
Defined.

(** C3 as stated fails: a 640 by 480 image is resized to 714 by 532, which
    has multiples of 14 on both axes and a shorter side of 532, but not the
    aspect ratio of the input. *)
Lemma resize_does_not_keep_aspect_ratio :
  Resize_call ex_lanczos4 the_resize ex_image_vga
    = inr (mk_ndarray 532 714 (ex_lanczos4 _ ex_image_vga 532%nat 714%nat)) /\
  ~ (exists resized,
       Resize_call ex_lanczos4 the_resize ex_image_vga = inr resized /\
       let w' := Z.of_nat (shape1 resized) in
       let h' := Z.of_nat (shape0 resized) in
       (14 | w') /\ (14 | h') /\ 532 <= Z.min w' h' /\
       w' * Z.of_nat (shape0 ex_image_vga) = h' * Z.of_nat (shape1 ex_image_vga)).
Proof.
  assert (E : Resize_call ex_lanczos4 the_resize ex_image_vga
              = inr (mk_ndarray 532 714 (ex_lanczos4 _ ex_image_vga 532%nat 714%nat))).
  { unfold Resize_call. cbn [shape0 shape1 ex_image_vga].
    replace (get_size the_resize 640 480) with (714, 532) by (vm_compute; reflexivity).
    reflexivity. }
  split; [exact E|].
  intros (resized & Hr & _ & _ & _ & H). rewrite E in Hr. injection Hr as <-.
  vm_compute in H. discriminate H.
Qed.

(** ** The further properties at concrete inputs *)

Lemma ex_frame_processed (r : Z) :
  r = 200 \/ r = 180 \/ r = 160 -> exists g, run_frame (ex_frame r) = inr g.
Proof.
  intros [-> | [-> | ->]].
  - destruct (run_frame (ex_frame 200)) as [e|g] eqn:E;
      [vm_compute in E; discriminate | now exists g].
  - destruct (run_frame (ex_frame 180)) as [e|g] eqn:E;
      [vm_compute in E; discriminate | now exists g].
  - destruct (run_frame (ex_frame 160)) as [e|g] eqn:E;
      [vm_compute in E; discriminate | now exists g].
Defined.

Lemma ex_short_video_has_2_frames : has_frames ex_short_video 2.
Proof.
  intros i. split.
  - intros Hi. destruct i as [|[|i]]; cbn; eauto. lia.
  - intros Hi. do 2 (destruct i as [|i]; [lia|]). cbn. destruct i; reflexivity.
Defined.

Lemma ex_short_video_frames_processed (i : nat) (f : frame) :
  stream ex_short_video i = Some f -> exists g, run_frame f = inr g.
Proof.
  destruct i as [|[|[|i]]]; cbn; intros H; try discriminate;
    injection H as <-; apply ex_frame_processed; auto.
Defined.

(** X2 on two frames reported as ten: the read after the second frame
    fails. *)
Lemma output_has_min_of_reported_and_available_witness :
  exists w' o,
    run_video "v/short.mp4" "out/processed_short.mp4" (ex_world2 []) = (w', inr tt) /\
    writer_log w' = [o] /\ List.length (out_frames o) = 2%nat.
Proof.
  destruct (output_has_min_of_reported_and_available ex_model ex_lanczos4
              ex_gaussian5x5 ex_uint8_of_invalid (ex_world2 [])
              "v/short.mp4" "out/processed_short.mp4" ex_short_video 2)
    as (w' & c & o & Hrun & _ & Ho & Hlen & _).
  - reflexivity.
  - exact ex_short_video_has_2_frames.
  - constructor.
  - exact ex_short_video_frames_processed.
  - exists w', o. split; [exact Hrun|]. split; [exact Ho | exact Hlen].
Defined.

(** X3 on a container that reports a count of zero. *)
Lemma no_reported_frames_no_output_witness :
  exists w' o,
    run_video "v/zero.avi" "out/processed_zero.avi" (ex_world2 [113]) = (w', inr tt) /\
    writer_log w' = [o] /\ out_frames o = [] /\ keys w' = [113].
Proof.
  destruct (no_reported_frames_no_output ex_model ex_lanczos4 ex_gaussian5x5
              ex_uint8_of_invalid (ex_world2 [113])
              "v/zero.avi" "out/processed_zero.avi" ex_uncounted_video)
    as (w' & c & o & Hrun & _ & Ho & Hfr & _ & Hk).
  - reflexivity.
  - cbn. lia.
  - exists w', o. auto.
Defined.

(** X4 on a folder whose first video makes the model fail on its second
    frame: the second video is not opened. *)
Lemma exception_in_frame_aborts_batch_witness :
  exists w' c o,
    run_batch "v" "out" (ex_world2 []) = (w', inl (RuntimeError "out of memory")) /\
    cap_log w' = [c] /\ writer_log w' = [o] /\
    List.length (out_frames o) = 1%nat /\
    cap_released c = true /\ out_released o = true.
Proof.
  destruct (exception_in_frame_aborts_batch ex_model ex_lanczos4 ex_gaussian5x5
              ex_uint8_of_invalid (ex_world2 [])
              "v/fail.mov" "out/processed_fail.mov" ex_failing_video 1
              (ex_frame 0) (RuntimeError "out of memory"))
    as (w' & c & o & _ & Hc & Ho & Hlen & _ & Hcr & Hor & _ & Hbatch).
  - reflexivity.
  - cbn. lia.
  - constructor.
  - intros j Hj. destruct j as [|j]; [|lia].
    exists (ex_frame 200). destruct (ex_frame_processed 200) as (g & Hg); [auto|].
    exists g. split; [reflexivity | exact Hg].
  - reflexivity.
  - vm_compute. reflexivity.
  - exists w', c, o. split; [|auto].
    exact (Hbatch "v" "out" "fail.mov" ["short.mp4"] eq_refl eq_refl)%string.
Defined.

(** X5 on the three frames of [ex_video]. *)
Lemma output_frames_are_processed_source_frames_witness :
  exists o,
    writer_log (fst (run_video "in/a.mp4" "out/processed_a.mp4" (ex_world []))) = [o] /\
    forall i g, nth_error (out_frames o) i = Some g ->
      exists f, stream ex_video i = Some f /\ run_frame f = inr g.
Proof.
  apply (output_frames_are_processed_source_frames ex_model ex_lanczos4
           ex_gaussian5x5 ex_uint8_of_invalid (ex_world [])
           (fst (run_video "in/a.mp4" "out/processed_a.mp4" (ex_world [])))
           "in/a.mp4" "out/processed_a.mp4" ex_video
           (snd (run_video "in/a.mp4" "out/processed_a.mp4" (ex_world [])))).
  - reflexivity.
  - apply surjective_pairing.
Defined.

(** X6 with the quit key at the third poll and one more key pending. *)
Lemma one_key_poll_per_written_frame_witness :
  exists o,
    writer_log (fst (run_video "in/a.mp4" "out/processed_a.mp4"
                       (ex_world [-1; -1; 113; 7]))) = [o] /\
    keys (fst (run_video "in/a.mp4" "out/processed_a.mp4" (ex_world [-1; -1; 113; 7])))
    = skipn (List.length (out_frames o)) [-1; -1; 113; 7].
Proof.
  apply (one_key_poll_per_written_frame ex_model ex_lanczos4 ex_gaussian5x5
           ex_uint8_of_invalid (ex_world [-1; -1; 113; 7])
           (fst (run_video "in/a.mp4" "out/processed_a.mp4" (ex_world [-1; -1; 113; 7])))
           "in/a.mp4" "out/processed_a.mp4" ex_video
           (snd (run_video "in/a.mp4" "out/processed_a.mp4" (ex_world [-1; -1; 113; 7])))).
  - reflexivity.
  - apply surjective_pairing.
Defined.

(** X7 on the depth map with values 0, 1, 2 and 3. *)
Lemma visualize_depth_keeps_order_witness :
  exists g,
    visualize_depth ex_uint8_of_invalid ex_depth = inr (squeeze g) /\
    item g 1 0 <= item g 0 1.
Proof.
  destruct (visualize_depth_keeps_order ex_uint8_of_invalid ex_depth 0 3 3)
    as (g & Hg & _ & Hord).
  - exact ex_depth_finite.
  - reflexivity.
  - reflexivity.
  - reflexivity.
  - vm_compute. reflexivity.
  - exists g. split; [exact Hg|].
    apply (Hord 1%nat 0%nat 0%nat 1%nat 1%Q 2%Q);
      [cbn; lia | cbn; lia | cbn; lia | cbn; lia | reflexivity | reflexivity|].
    vm_compute. discriminate.
Defined.

(** X11 on a folder of a text file, an image and a file named [mp4]. *)
Lemma folder_without_videos_left_alone_witness :
  run_batch "docs" "out" (ex_world2 [113]) = (ex_world2 [113], inr tt).
Proof.
  apply (folder_without_videos_left_alone ex_model ex_lanczos4 ex_gaussian5x5
           ex_uint8_of_invalid (ex_world2 [113]) "docs" "out"
           ["readme.txt"; "a.gif"; "mp4"]%string).
  - reflexivity.
  - intros f [<- | [<- | [<- | []]]]; unfold has_video_extension; cbn;
      intuition discriminate.
Defined.
